(** * gala.potential.potential.builtin.pybuiltin

    A shallow embedding of the two pure-Python potentials of
    [pybuiltin.py], [HarmonicOscillatorPotential] and [KuzminPotential],
    and the properties of their [_energy], [_gradient], [_hessian] and
    [_setup_potential] methods.

    Numeric model.  A float64 is idealised: a finite value is a real
    number and arithmetic on finite values is exact (no rounding, no
    overflow, no signed zero); the IEEE special values that NumPy
    produces instead of raising (infinities and NaN) are kept, so that a
    division by zero is visible in the result.  Physical units are
    outside this file: a parameter is its unit-stripped number, and
    [.value] is the identity. *)

From Stdlib Require Import Reals Lra Lia List Bool String.
From stdpp Require Import base option gmap strings.
Import ListNotations.

Local Open Scope R_scope.

(** ** Scalars *)

Module Float.

(** [Inf true] is minus infinity, [Inf false] plus infinity. *)
Inductive float : Type :=
| Finite (r : R)
| Inf (negative : bool)
| NaN.

Definition Rltb (x y : R) : bool := if Rlt_dec x y then true else false.
Definition Reqb (x y : R) : bool := if Req_dec_T x y then true else false.

Definition is_finite (v : float) : bool :=
  match v with Finite _ => true | _ => false end.

(** The real number a finite value stands for (0 for the others). *)
Definition to_R (v : float) : R :=
  match v with Finite r => r | _ => 0 end.

(** unary [-] *)
Definition neg (v : float) : float :=
  match v with
  | Finite r => Finite (- r)
  | Inf s => Inf (negb s)
  | NaN => NaN
  end.

(** [np.abs] *)
Definition abs (v : float) : float :=
  match v with
  | Finite r => Finite (Rabs r)
  | Inf _ => Inf false
  | NaN => NaN
  end.

(** [+] *)
Definition add (u v : float) : float :=
  match u, v with
  | Finite x, Finite y => Finite (x + y)
  | NaN, _ | _, NaN => NaN
  | Inf s, Finite _ | Finite _, Inf s => Inf s
  | Inf s, Inf s' => if eqb s s' then Inf s else NaN
  end.

(** [*] *)
Definition mul (u v : float) : float :=
  match u, v with
  | Finite x, Finite y => Finite (x * y)
  | NaN, _ | _, NaN => NaN
  | Inf s, Finite y | Finite y, Inf s =>
      if Reqb y 0 then NaN else Inf (xorb s (Rltb y 0))
  | Inf s, Inf s' => Inf (xorb s s')
  end.

(** [/] as NumPy evaluates it: a zero divisor gives an infinity with a
    divide-by-zero warning (NaN for 0/0) and not an exception.  Zeros
    carry no sign here; every divisor in this file is a square root or
    a power of a sum of squares, whose zero is +0. *)
Definition div (u v : float) : float :=
  match u, v with
  | Finite x, Finite y =>
      if Reqb y 0
      then (if Reqb x 0 then NaN else Inf (Rltb x 0))
      else Finite (x / y)
  | NaN, _ | _, NaN => NaN
  | Finite _, Inf _ => Finite 0
  | Inf s, Finite y => Inf (xorb s (Rltb y 0))
  | Inf _, Inf _ => NaN
  end.

(** [np.sqrt] *)
Definition sqrt (v : float) : float :=
  match v with
  | Finite r => if Rltb r 0 then NaN else Finite (R_sqrt.sqrt r)
  | Inf false => Inf false
  | Inf true => NaN
  | NaN => NaN
  end.

(** [v ** 2] *)
Definition square (v : float) : float := mul v v.

(** [v ** 1.5]: the C [pow] with exponent 3/2. *)
Definition pow_1_5 (v : float) : float :=
  match v with
  | Finite r =>
      if Rltb r 0 then NaN
      else if Reqb r 0 then Finite 0
      else Finite (Rpower r (3 / 2))
  | Inf _ => Inf false
  | NaN => NaN
  end.

End Float.

Import Float.

(** ** Exceptions *)

Inductive exn : Type :=
| KeyError      (* a missing dict key *)
| ValueError    (* shapes that do not broadcast, a wrong unpacking *)
| TypeError.    (* [len] of a number *)

Inductive result (A : Type) : Type :=
| Ok (a : A)
| Raise (e : exn).
Arguments Ok {A} a.
Arguments Raise {A} e.

#[global] Instance result_ret : MRet result := fun A a => Ok a.
#[global] Instance result_bind : MBind result := fun A B f m =>
  match m with Ok a => f a | Raise e => Raise e end.

(** [d[k]] on a dict *)
Definition getitem {V : Type} (d : gmap string V) (k : string) : result V :=
  match d !! k with Some v => Ok v | None => Raise KeyError end.

(** ** Arrays *)

Module np.

(** A 1-D array, shape [(length a,)]. *)
Abbreviation array1 := (list float) (only parsing).

(** A 2-D array of shape [(length rows, ncols)], row-major. *)
Record array2 : Type := Array2 { ncols : nat; rows : list (list float) }.

(** A 3-D array of shape [(length data, dim1, dim2)]. *)
Record array3 : Type :=
  Array3 { dim1 : nat; dim2 : nat; data : list (list (list float)) }.

Definition shape0 (A : array2) : nat := length (rows A).
Definition shape (A : array2) : nat * nat := (shape0 A, ncols A).
Definition shape3 (A : array3) : nat * nat * nat :=
  (length (data A), dim1 A, dim2 A).

(** Every row has the declared length. *)
Definition wf2 (A : array2) : Prop :=
  Forall (fun r => length r = ncols A) (rows A).
Definition wf3 (A : array3) : Prop :=
  Forall (fun m => length m = dim1 A /\
                   Forall (fun r => length r = dim2 A) m) (data A).

(** A parameter value as the caller gives it: a number or a sequence. *)
Inductive value : Type :=
| Scalar (v : float)
| Sequence (a : array1).

(** [np.atleast_1d] *)
Definition atleast_1d (p : value) : array1 :=
  match p with
  | Scalar v => [v]
  | Sequence a => a
  end.

(** [a[None]]: a 1-D array as the single row of a 2-D one. *)
Definition newaxis (a : array1) : array2 := Array2 (length a) [a].

(** [A ** 2] and [c * A], elementwise. *)
Definition map2d (f : float -> float) (A : array2) : array2 :=
  Array2 (ncols A) (map (map f) (rows A)).

(** Broadcasting of one axis: equal lengths, or one of them is 1. *)
Definition broadcast_dim (n m : nat) : option nat :=
  if Nat.eqb n m then Some n
  else if Nat.eqb n 1 then Some m
  else if Nat.eqb m 1 then Some n
  else None.

(** An axis of length 1 is repeated to length [k]. *)
Definition stretch {A : Type} (k : nat) (l : list A) : list A :=
  match l with
  | [v] => replicate k v
  | _ => l
  end.

(** A binary elementwise operation on two 2-D arrays, with broadcasting;
    shapes that do not broadcast raise [ValueError]. *)
Definition broadcast2 (f : float -> float -> float) (A B : array2)
  : result array2 :=
  match broadcast_dim (shape0 A) (shape0 B),
        broadcast_dim (ncols A) (ncols B) with
  | Some r, Some c =>
      Ok (Array2 c
            (zip_with (zip_with f)
               (stretch r (map (stretch c) (rows A)))
               (stretch r (map (stretch c) (rows B)))))
  | _, _ => Raise ValueError
  end.

(** [np.sum] of one row, accumulated from 0 in index order. *)
Definition sum1 (a : array1) : float := fold_left add a (Finite 0).

(** [np.sum(A, axis=1)] *)
Definition sum_axis1 (A : array2) : array1 := map sum1 (rows A).

(** [np.diag] of a 1-D array: the square matrix with [a] on its diagonal
    and zeros elsewhere. *)
Definition diag (a : array1) : array2 :=
  Array2 (length a)
    (imap (fun i v => <[i := v]> (replicate (length a) (Finite 0))) a).

(** [np.tile(M[:, :, None], reps=(1, 1, n))]: every entry of the matrix
    becomes a vector of [n] copies of it. *)
Definition tile_last (M : array2) (n : nat) : array3 :=
  Array3 (ncols M) n (map (map (replicate n)) (rows M)).

(** [A[i, j, k]], [None] out of range. *)
Definition item3 (A : array3) (i j k : nat) : option float :=
  match data A !! i with
  | Some m => match m !! j with
              | Some r => r !! k
              | None => None
              end
  | None => None
  end.

(** [len] of a parameter value; a number has no length. *)
Definition len (p : value) : result nat :=
  match p with
  | Scalar _ => Raise TypeError
  | Sequence a => Ok (length a)
  end.

End np.

Import np.

(** ** HarmonicOscillatorPotential *)

Module HarmonicOscillatorPotential.

(** The attributes of an instance that this file reads or writes. *)
Record instance : Type :=
  Instance { parameters : gmap string value; ndim : nat }.

(** Modelled from the spec: [PotentialBase._setup_potential] is not in
    this file.  It is the framework's setup hook, which stores the
    declared parameters as [self.parameters]; units, [origin] and [R]
    play no part in what follows and are left out. *)
Definition PotentialBase_setup_potential
  (self : instance) (params : gmap string value) : instance :=
  Instance params (ndim self).

Definition _setup_potential
  (self : instance) (params : gmap string value) : result instance :=
  let self := PotentialBase_setup_potential self params in
  omega ← getitem (parameters self) "omega";
  let self :=
    Instance (<["omega" := Sequence (atleast_1d omega)]> (parameters self))
             (ndim self) in
  omega ← getitem (parameters self) "omega";
  n ← len omega;
  mret (Instance (parameters self) n).

Definition _energy (self : instance) (q : array2) (t : float)
  : result array1 :=
  omega ← getitem (parameters self) "omega";
  let om := atleast_1d omega in
  e ← broadcast2 mul
        (map2d (mul (Finite 0.5)) (map2d square (newaxis om)))
        (map2d square q);
  mret (sum_axis1 e).

Definition _gradient (self : instance) (q : array2) (t : float)
  : result array2 :=
  omega ← getitem (parameters self) "omega";
  let om := atleast_1d omega in
  broadcast2 mul (map2d square (newaxis om)) q.

Definition _hessian (self : instance) (q : array2) (t : float)
  : result array3 :=
  omega ← getitem (parameters self) "omega";
  let om := atleast_1d omega in
  mret (tile_last (diag om) (shape0 q)).

End HarmonicOscillatorPotential.

(** ** KuzminPotential *)

Module KuzminPotential.

Record instance : Type :=
  Instance { G : float; parameters : gmap string float }.

(** [x, y, z = q] *)
Definition unpack (q : array2) : result (array1 * array1 * array1) :=
  match rows q with
  | [x; y; z] => Ok (x, y, z)
  | _ => Raise ValueError
  end.

(** [x**2 + y**2 + (a + np.abs(z))**2], elementwise; the three rows of
    one array have one length. *)
Definition radicand (a : float) (x y z : array1) : array1 :=
  zip_with add
    (zip_with add (map square x) (map square y))
    (map square (map (add a) (map abs z))).

Definition _energy (self : instance) (q : array2) (t : float)
  : result array1 :=
  '(x, y, z) ← unpack q;
  m ← getitem (parameters self) "m";
  a ← getitem (parameters self) "a";
  let val := map (div (mul (neg (G self)) m))
                 (map sqrt (radicand a x y z)) in
  mret val.

(** The local [fac] of [_gradient]. *)
Definition fac (self : instance) (m a : float) (x y z : array1) : array1 :=
  map (div (mul (G self) m)) (map pow_1_5 (radicand a x y z)).

Definition _gradient (self : instance) (q : array2) (t : float)
  : result array2 :=
  '(x, y, z) ← unpack q;
  m ← getitem (parameters self) "m";
  a ← getitem (parameters self) "a";
  broadcast2 mul (newaxis (fac self m a x y z)) q.

End KuzminPotential.

(** * Inputs and observations *)

#[global] Instance result_fmap : FMap result := fun A B f m =>
  match m with Ok a => Ok (f a) | Raise e => Raise e end.

(** The sum of [f 0], ..., [f (n - 1)], added in index order. *)
Fixpoint sigma (f : nat -> R) (n : nat) : R :=
  match n with
  | O => 0
  | S k => sigma f k + f k
  end.

(** ** Harmonic oscillator *)

(** An instance set up with the real frequencies [omega]. *)
Definition harmonic (omega : list R) : HarmonicOscillatorPotential.instance :=
  HarmonicOscillatorPotential.Instance
    {["omega" := Sequence (map Finite omega)]} (length omega).

(** The instance reads the real frequencies [omega]: its parameter is a
    number or a sequence whose 1-D form is [omega]. *)
Definition has_omega (self : HarmonicOscillatorPotential.instance)
    (omega : list R) : Prop :=
  exists p, HarmonicOscillatorPotential.parameters self !! "omega" = Some p /\
            atleast_1d p = map Finite omega.

(** A batch of real positions, one row per sample. *)
Definition batch (ndim : nat) (xs : list (list R)) : array2 :=
  Array2 ndim (map (map Finite) xs).

(** The entries of [q] that [mask] selects, by row and column, negated. *)
Definition negate_where (mask : nat -> nat -> bool) (q : array2) : array2 :=
  Array2 (ncols q)
    (imap (fun j r => imap (fun i v => if mask j i then neg v else v) r)
          (rows q)).

(** Two batches of the same width, one after the other. *)
Definition concat_rows (ncols : nat) (r1 r2 : list (list float)) : array2 :=
  Array2 ncols (r1 ++ r2).

(** [A[i, j]], [None] out of range. *)
Definition item2 (A : array2) (i j : nat) : option float :=
  match rows A !! i with
  | Some r => r !! j
  | None => None
  end.

(** [_energy] and [_gradient] of the harmonic oscillator on the batch of
    the one sample [x], as real numbers. *)
Definition harmonic_energy_at (self : HarmonicOscillatorPotential.instance)
    (x : list R) : R :=
  match HarmonicOscillatorPotential._energy self (batch (length x) [x])
          (Finite 0) with
  | Ok [v] => to_R v
  | _ => 0
  end.

Definition harmonic_gradient_at (self : HarmonicOscillatorPotential.instance)
    (x : list R) : option (list R) :=
  match HarmonicOscillatorPotential._gradient self (batch (length x) [x])
          (Finite 0) with
  | Ok g =>
      match rows g with
      | [r] => Some (map to_R r)
      | _ => None
      end
  | Raise _ => None
  end.

(** ** Kuzmin *)

(** An instance with the real constants [G], [m] and [a]. *)
Definition kuzmin (G m a : R) : KuzminPotential.instance :=
  KuzminPotential.Instance (Finite G) {["m" := Finite m; "a" := Finite a]}.

Definition has_params (self : KuzminPotential.instance) (G m a : R) : Prop :=
  KuzminPotential.G self = Finite G /\
  KuzminPotential.parameters self !! "m" = Some (Finite m) /\
  KuzminPotential.parameters self !! "a" = Some (Finite a).

(** The batch of the samples (x_j, y_j, z_j): three rows of N reals. *)
Definition batch3 (xs ys zs : list R) : array2 :=
  Array2 (length xs) [map Finite xs; map Finite ys; map Finite zs].

(** The third row of a three-row array negated, z -> -z. *)
Definition negate_z (q : array2) : array2 :=
  match rows q with
  | [x; y; z] => Array2 (ncols q) [x; y; map neg z]
  | _ => q
  end.

(** x^2 + y^2 + (a + |z|)^2 on real numbers. *)
Definition rad (a x y z : R) : R := x ^ 2 + y ^ 2 + (a + Rabs z) ^ 2.

(** [_energy] and [_gradient] on the one-sample batch (x, y, z), as real
    numbers. *)
Definition energy_at (self : KuzminPotential.instance) (x y z : R) : R :=
  match KuzminPotential._energy self (batch3 [x] [y] [z]) (Finite 0) with
  | Ok [v] => to_R v
  | _ => 0
  end.

Definition gradient_at (self : KuzminPotential.instance) (x y z : R)
  : option (R * R * R) :=
  match KuzminPotential._gradient self (batch3 [x] [y] [z]) (Finite 0) with
  | Ok g =>
      match rows g with
      | [[Finite gx]; [Finite gy]; [Finite gz]] => Some (gx, gy, gz)
      | _ => None
      end
  | Raise _ => None
  end.

(** * Properties *)

(** ** Scalars *)

Section ScalarFacts.

Lemma Reqb_true (x y : R) : x = y -> Reqb x y = true.
Proof. intros H. unfold Reqb. destruct (Req_dec_T x y); congruence. Qed.

Lemma Reqb_false (x y : R) : x <> y -> Reqb x y = false.
Proof. intros H. unfold Reqb. destruct (Req_dec_T x y); congruence. Qed.

Lemma Rltb_true (x y : R) : x < y -> Rltb x y = true.
Proof. intros H. unfold Rltb. destruct (Rlt_dec x y); [reflexivity | lra]. Qed.

Lemma Rltb_false (x y : R) : y <= x -> Rltb x y = false.
Proof. intros H. unfold Rltb. destruct (Rlt_dec x y); [lra | reflexivity]. Qed.

Lemma Rltb_opp (y : R) : y <> 0 -> Rltb (- y) 0 = negb (Rltb y 0).
Proof.
  intros Hy. destruct (Rlt_dec y 0) as [Hlt | Hge].
  - rewrite (Rltb_true y 0 Hlt), Rltb_false; [reflexivity | lra].
  - rewrite (Rltb_false y 0), Rltb_true; [reflexivity | lra | lra].
Qed.

Lemma Reqb_opp (y : R) : Reqb (- y) 0 = Reqb y 0.
Proof.
  destruct (Req_dec_T y 0) as [-> | Hy].
  - rewrite Ropp_0. reflexivity.
  - rewrite !Reqb_false; [reflexivity | assumption | lra].
Qed.

Lemma square_Finite (x : R) : square (Finite x) = Finite (x ^ 2).
Proof. unfold square; simpl. f_equal. ring. Qed.

Lemma abs_neg (v : float) : abs (neg v) = abs v.
Proof. destruct v; simpl; [rewrite Rabs_Ropp|..]; reflexivity. Qed.

Lemma mul_neg_r (u v : float) : mul u (neg v) = neg (mul u v).
Proof.
  destruct u as [x | s |], v as [y | s' |]; simpl; try reflexivity.
  - f_equal. ring.
  - destruct (Reqb x 0); simpl; [reflexivity |].
    rewrite <- negb_xorb_l. reflexivity.
  - rewrite Reqb_opp. destruct (Req_dec_T y 0) as [-> | Hy].
    + rewrite Reqb_true; reflexivity.
    + rewrite Reqb_false by assumption. simpl.
      rewrite Rltb_opp by assumption. rewrite negb_xorb_r. reflexivity.
  - rewrite <- negb_xorb_r. reflexivity.
Qed.

Lemma div_Finite (x y : R) :
  y <> 0 -> div (Finite x) (Finite y) = Finite (x / y).
Proof. intros Hy. simpl. rewrite Reqb_false by assumption. reflexivity. Qed.

Lemma sqrt_Finite (x : R) : 0 <= x -> sqrt (Finite x) = Finite (R_sqrt.sqrt x).
Proof. intros Hx. simpl. rewrite Rltb_false by assumption. reflexivity. Qed.

Lemma pow_1_5_Finite (x : R) :
  0 < x -> pow_1_5 (Finite x) = Finite (Rpower x (3 / 2)).
Proof.
  intros Hx. simpl. rewrite Rltb_false by lra. rewrite Reqb_false by lra.
  reflexivity.
Qed.

End ScalarFacts.

(** ** Arrays *)

Section ArrayFacts.

Lemma stretch_id {A : Type} (k : nat) (l : list A) :
  length l = k -> stretch k l = l.
Proof.
  intros <-. destruct l as [| v [| w l]]; reflexivity.
Qed.

Lemma broadcast_dim_refl (n : nat) : broadcast_dim n n = Some n.
Proof. unfold broadcast_dim. rewrite Nat.eqb_refl. reflexivity. Qed.

Lemma broadcast_dim_1_l (n : nat) : broadcast_dim 1 n = Some n.
Proof.
  unfold broadcast_dim. destruct (Nat.eqb_spec 1 n) as [<- | _]; reflexivity.
Qed.

Lemma zip_with_replicate_l' {A B C : Type} (f : A -> B -> C) (a : A)
    (l : list B) :
  zip_with f (replicate (length l) a) l = map (f a) l.
Proof. induction l as [| b l IH]; simpl; [| rewrite IH]; reflexivity. Qed.

Lemma map_stretch_wf (n : nat) (rs : list (list float)) :
  Forall (fun r => length r = n) rs -> map (stretch n) rs = rs.
Proof.
  induction 1 as [| r rs Hr _ IH]; simpl; [reflexivity |].
  rewrite IH, stretch_id by assumption. reflexivity.
Qed.

(** A single row against a well-formed array of the same width: the row
    is combined with every row of the array. *)
Lemma broadcast2_row (f : float -> float -> float) (a : array1) (q : array2) :
  wf2 q -> length a = ncols q ->
  broadcast2 f (Array2 (ncols q) [a]) q
  = Ok (Array2 (ncols q) (map (zip_with f a) (rows q))).
Proof.
  intros Hwf Hlen. unfold broadcast2, shape0. simpl.
  rewrite broadcast_dim_1_l, broadcast_dim_refl.
  rewrite (stretch_id (ncols q) a) by assumption.
  rewrite (map_stretch_wf _ _ Hwf).
  rewrite (stretch_id (length (rows q)) (rows q)) by reflexivity.
  simpl. rewrite zip_with_replicate_l'. reflexivity.
Qed.

Lemma fold_left_add_Finite (l : list R) (acc : R) :
  fold_left add (map Finite l) (Finite acc) = Finite (fold_left Rplus l acc).
Proof.
  revert acc. induction l as [| x l IH]; intros acc; simpl; [reflexivity |].
  apply IH.
Qed.

Lemma fold_left_Rplus_sigma (l : list R) :
  fold_left Rplus l 0 = sigma (fun i => nth i l 0) (length l).
Proof.
  induction l as [| x l IH] using rev_ind; [reflexivity |].
  rewrite fold_left_app, length_app, Nat.add_comm. simpl.
  rewrite IH. f_equal.
  - clear IH. generalize (Nat.le_refl (length l)).
    generalize (length l) at 1 3 4 as k. induction k as [| k IHk]; intros Hk.
    + reflexivity.
    + simpl. rewrite IHk by lia. f_equal.
      rewrite app_nth1 by lia. reflexivity.
  - rewrite app_nth2, Nat.sub_diag by lia. reflexivity.
Qed.

Lemma sum1_Finite (l : list R) :
  sum1 (map Finite l) = Finite (sigma (fun i => nth i l 0) (length l)).
Proof.
  unfold sum1. rewrite fold_left_add_Finite, fold_left_Rplus_sigma.
  reflexivity.
Qed.

Lemma sigma_ext (f g : nat -> R) (n : nat) :
  (forall i, (i < n)%nat -> f i = g i) -> sigma f n = sigma g n.
Proof.
  induction n as [| n IH]; intros H; simpl; [reflexivity |].
  rewrite IH, H by (try intros; auto with arith). reflexivity.
Qed.

Lemma zip_with_Finite (g : R -> R -> R) (f : float -> float -> float)
    (u v : list R) :
  (forall x y, f (Finite x) (Finite y) = Finite (g x y)) ->
  zip_with f (map Finite u) (map Finite v) = map Finite (zip_with g u v).
Proof.
  intros Hf. revert v. induction u as [| x u IH]; intros [| y v]; simpl;
    try reflexivity.
  rewrite Hf, IH. reflexivity.
Qed.

Lemma nth_zip_with (g : R -> R -> R) (u v : list R) (i : nat) :
  length u = length v -> (i < length u)%nat ->
  nth i (zip_with g u v) 0 = g (nth i u 0) (nth i v 0).
Proof.
  revert v i. induction u as [| x u IH]; intros [| y v] [| i]; simpl;
    intros Hl Hi; try lia; [reflexivity |].
  apply IH; lia.
Qed.

End ArrayFacts.

(** ** HarmonicOscillatorPotential *)

Section Harmonic.

Import HarmonicOscillatorPotential.

Lemma map_square_Finite (l : list R) :
  map square (map Finite l) = map Finite (map (fun x => x ^ 2) l).
Proof.
  rewrite !map_map. apply map_ext. intros x. apply square_Finite.
Qed.

Lemma wf2_batch (n : nat) (xs : list (list R)) :
  Forall (fun x => length x = n) xs -> wf2 (batch n xs).
Proof.
  intros H. unfold wf2, batch. simpl. rewrite Forall_map.
  eapply Forall_impl; [exact H |]. simpl. intros x Hx.
  rewrite length_map. exact Hx.
Qed.

(** One frequency row against a batch, on real numbers. *)
Lemma broadcast2_mul_batch (n : nat) (w : list R) (xs : list (list R)) :
  length w = n ->
  Forall (fun x => length x = n) xs ->
  broadcast2 mul (Array2 n [map Finite w]) (batch n xs)
  = Ok (batch n (map (zip_with Rmult w) xs)).
Proof.
  intros Hw Hxs.
  etransitivity.
  { apply (broadcast2_row mul (map Finite w) (batch n xs) (wf2_batch _ _ Hxs)).
    rewrite length_map. exact Hw. }
  unfold batch. cbn [ncols rows]. do 2 f_equal. rewrite !map_map.
  apply map_ext. intros x. apply zip_with_Finite. reflexivity.
Qed.

Lemma nth_map_R (g : R -> R) (l : list R) (i : nat) :
  (i < length l)%nat -> nth i (map g l) 0 = g (nth i l 0).
Proof.
  intros Hi. rewrite (nth_indep _ 0 (g 0)) by (rewrite length_map; exact Hi).
  apply map_nth.
Qed.

Lemma energy_rows (self : instance) (omega : list R) (xs : list (list R))
    (t : float) :
  has_omega self omega ->
  Forall (fun x => length x = length omega) xs ->
  _energy self (batch (length omega) xs) t
  = Ok (map (fun x => Finite (sigma
             (fun i => 0.5 * nth i omega 0 ^ 2 * nth i x 0 ^ 2)
             (length omega))) xs).
Proof.
  intros (p & Hp & Hom) Hxs. unfold _energy, getitem. rewrite Hp.
  cbn [mbind result_bind]. rewrite Hom. unfold newaxis, map2d, batch.
  cbn [ncols rows map]. rewrite length_map, map_square_Finite.
  set (w := map (fun x => 0.5 * x ^ 2) omega).
  assert (Hw : map (mul (Finite 0.5)) (map Finite (map (fun x => x ^ 2) omega))
               = map Finite w).
  { unfold w. rewrite !map_map. reflexivity. }
  rewrite Hw.
  assert (Hq : Array2 (length omega) (map (map square) (map (map Finite) xs))
               = batch (length omega) (map (map (fun x => x ^ 2)) xs)).
  { unfold batch. f_equal. rewrite !map_map.
    apply map_ext. intros x. apply map_square_Finite. }
  rewrite Hq, broadcast2_mul_batch.
  2:{ unfold w. apply length_map. }
  2:{ rewrite Forall_map. eapply Forall_impl; [exact Hxs |].
      intros x Hx. cbn beta. rewrite length_map. exact Hx. }
  cbn [mbind result_bind mret result_ret]. f_equal.
  unfold sum_axis1, batch. cbn [rows]. rewrite !map_map.
  apply map_ext_Forall. eapply Forall_impl; [exact Hxs |].
  intros x Hx. cbn beta in Hx |- *. rewrite sum1_Finite. f_equal.
  assert (Hl : length (zip_with Rmult w (map (fun x => x ^ 2) x))
               = length omega).
  { rewrite length_zip_with. unfold w. rewrite !length_map.
    cbn beta in Hx. lia. }
  rewrite Hl. apply sigma_ext. intros i Hi.
  rewrite nth_zip_with by (unfold w; rewrite !length_map; lia).
  unfold w. rewrite !nth_map_R by lia. reflexivity.
Qed.

Lemma zip_with_seq (g : R -> R -> R) (u v : list R) :
  length v = length u ->
  zip_with g u v
  = map (fun i => g (nth i u 0) (nth i v 0)) (seq 0 (length u)).
Proof.
  revert v. induction u as [| x u IH]; intros [| y v] Hl; simpl in *;
    try reflexivity; try discriminate.
  f_equal. rewrite <- seq_shift, map_map. apply IH. lia.
Qed.

Lemma gradient_rows (self : instance) (omega : list R) (xs : list (list R))
    (t : float) :
  has_omega self omega ->
  Forall (fun x => length x = length omega) xs ->
  _gradient self (batch (length omega) xs) t
  = Ok (batch (length omega)
          (map (fun x => map (fun i => nth i omega 0 ^ 2 * nth i x 0)
                             (seq 0 (length omega))) xs)).
Proof.
  intros (p & Hp & Hom) Hxs. unfold _gradient, getitem. rewrite Hp.
  cbn [mbind result_bind]. rewrite Hom. unfold newaxis, map2d.
  cbn [ncols rows map]. rewrite length_map, map_square_Finite.
  rewrite broadcast2_mul_batch; [| apply length_map | exact Hxs].
  do 2 f_equal. apply map_ext_Forall. eapply Forall_impl; [exact Hxs |].
  intros x Hx. cbn beta in Hx |- *.
  rewrite zip_with_seq by (rewrite length_map; exact Hx).
  rewrite length_map. apply map_ext_in. intros i Hi.
  apply in_seq in Hi. rewrite nth_map_R by lia. reflexivity.
Qed.



Lemma has_omega_harmonic (omega : list R) : has_omega (harmonic omega) omega.
Proof.
  exists (Sequence (map Finite omega)). split; [| reflexivity].
  unfold harmonic. cbn [parameters]. apply lookup_singleton_eq.
Qed.

(** C3: for every frequency vector omega of length ndim, every batch q of
    shape N x ndim and every t, [_energy] returns one scalar per row of q,
    in the order of the rows, and the scalar of row x is the sum over the
    axes i of 0.5 * omega_i^2 * x_i^2; for omega = [1.0, 2.0] and
    q = [[1.0, 1.0]] the result is [2.5]. *)
Theorem C3_energy_sum_of_half_squares :
  (forall (self : instance) (omega : list R) (xs : list (list R)) (t : float),
      has_omega self omega ->
      Forall (fun x => length x = length omega) xs ->
      _energy self (batch (length omega) xs) t
      = Ok (map (fun x => Finite (sigma
                  (fun i => 0.5 * nth i omega 0 ^ 2 * nth i x 0 ^ 2)
                  (length omega))) xs))
  /\ (forall t : float,
        _energy (harmonic [1; 2]) (batch 2 [[1; 1]]) t = Ok [Finite 2.5]).
Proof.
  split; [exact energy_rows |].
  intros t.
  etransitivity.
  { apply (energy_rows (harmonic [1; 2]) [1; 2] [[1; 1]] t
             (has_omega_harmonic _)).
    repeat constructor. }
  cbn [map length sigma nth]. do 3 f_equal. lra.
Qed.

Lemma C3_witness :
  has_omega (harmonic [3; 4]) [3; 4] /\
  Forall (fun x => length x = length [3; 4]) [[1; 2]; [0; 1]] /\
  _energy (harmonic [3; 4]) (batch 2 [[1; 2]; [0; 1]]) NaN
  = Ok (map (fun x => Finite (sigma
              (fun i => 0.5 * nth i [3; 4] 0 ^ 2 * nth i x 0 ^ 2) 2))
          [[1; 2]; [0; 1]]).
Proof.
  split; [apply has_omega_harmonic |].
  split; [repeat constructor |].
  apply (proj1 C3_energy_sum_of_half_squares (harmonic [3; 4]) [3; 4]).
  - apply has_omega_harmonic.
  - repeat constructor.
Defined.

(** C5: for every frequency vector omega of length ndim, every batch q of
    shape N x ndim and every t, [_gradient] returns, for each row x of q,
    the vector whose i-th component is omega_i^2 * x_i; for omega = [1.0]
    and q = [[2.0]] the result is [[2.0]]. *)
Theorem C5_gradient_componentwise :
  (forall (self : instance) (omega : list R) (xs : list (list R)) (t : float),
      has_omega self omega ->
      Forall (fun x => length x = length omega) xs ->
      _gradient self (batch (length omega) xs) t
      = Ok (batch (length omega)
              (map (fun x => map (fun i => nth i omega 0 ^ 2 * nth i x 0)
                                 (seq 0 (length omega))) xs)))
  /\ (forall t : float,
        _gradient (harmonic [1]) (batch 1 [[2]]) t = Ok (batch 1 [[2]])).
Proof.
  split; [exact gradient_rows |].
  intros t.
  etransitivity.
  { apply (gradient_rows (harmonic [1]) [1] [[2]] t (has_omega_harmonic _)).
    repeat constructor. }
  cbn [map length seq nth]. unfold batch. cbn [map].
  do 5 f_equal. lra.
Qed.

Lemma C5_witness :
  has_omega (harmonic [3; 4]) [3; 4] /\
  Forall (fun x => length x = length [3; 4]) [[1; 2]] /\
  _gradient (harmonic [3; 4]) (batch 2 [[1; 2]]) (Finite 0)
  = Ok (batch 2 [[3 ^ 2 * 1; 4 ^ 2 * 2]]).
Proof.
  split; [apply has_omega_harmonic |].
  split; [repeat constructor |].
  apply (proj1 C5_gradient_componentwise (harmonic [3; 4]) [3; 4] [[1; 2]]).
  - apply has_omega_harmonic.
  - repeat constructor.
Defined.



(** What [_hessian] computes: an array of shape ndim x ndim x N whose
    entry (i, j, k) does not depend on the sample k, is 0 off the diagonal
    and is omega_i itself on the diagonal. *)
Lemma hessian_entries (self : instance) (omega : list R) (q : array2)
    (t : float) :
  has_omega self omega ->
  exists H : array3,
    _hessian self q t = Ok H /\
    shape3 H = (length omega, length omega, shape0 q) /\
    wf3 H /\
    forall i j k : nat,
      (i < length omega)%nat -> (j < length omega)%nat ->
      (k < shape0 q)%nat ->
      item3 H i j k
      = Some (Finite (if Nat.eqb i j then nth i omega 0 else 0)).
Proof.
  intros (p & Hp & Hom). unfold _hessian, getitem. rewrite Hp.
  cbn [mbind result_bind mret result_ret]. rewrite Hom.
  eexists. split; [reflexivity |].
  unfold tile_last, diag, shape3, wf3, item3. cbn [data dim1 dim2 ncols rows].
  rewrite !length_map, length_imap, !length_map.
  split; [reflexivity |]. split.
  - rewrite Forall_map. apply Forall_lookup. intros i m Hi.
    rewrite list_lookup_imap in Hi.
    destruct (map Finite omega !! i) as [v |]; [| discriminate].
    injection Hi as <-.
    rewrite length_map, length_insert, length_replicate.
    split; [reflexivity |].
    rewrite Forall_map. apply Forall_forall. intros v' _.
    apply length_replicate.
  - intros i j k Hi Hj Hk.
    assert (Hw : omega !! i = Some (nth i omega 0)).
    { destruct (nth_lookup_or_length omega i 0) as [H | H]; [exact H | lia]. }
    rewrite list_lookup_fmap, list_lookup_imap, list_lookup_fmap, Hw.
    cbn [fmap option_fmap option_map]. rewrite list_lookup_fmap.
    destruct (Nat.eqb_spec i j) as [<- | Hne].
    + rewrite list_lookup_insert_eq by (rewrite length_replicate; lia).
      cbn [fmap option_fmap option_map]. apply lookup_replicate_2, Hk.
    + rewrite list_lookup_insert_ne by exact Hne.
      rewrite lookup_replicate_2 by lia.
      cbn [fmap option_fmap option_map]. apply lookup_replicate_2, Hk.
Qed.

(** C1: on omega = [2.0] and the one-sample batch q = [[1.0]], [_hessian]
    returns the 1 x 1 x 1 array [[[2.0]]]: its diagonal entry is omega_1,
    which differs from omega_1 squared, 4.0. *)
Theorem C1_hessian_diagonal_not_squared :
  forall t : float,
    _hessian (harmonic [2]) (batch 1 [[1]]) t
    = Ok (Array3 1 1 [[[Finite 2]]]) /\
    Finite 2 <> Finite (2 ^ 2).
Proof.
  intros t. split; [reflexivity |].
  intros H. injection H as H. lra.
Qed.

Lemma setup_result (self : instance) (params : gmap string value)
    (p : value) :
  params !! "omega" = Some p ->
  _setup_potential self params
  = Ok (Instance (<["omega" := Sequence (atleast_1d p)]> params)
                 (length (atleast_1d p))).
Proof.
  intros Hp. unfold _setup_potential, PotentialBase_setup_potential, getitem.
  cbn [parameters ndim]. rewrite Hp. cbn [mbind result_bind].
  rewrite lookup_insert_eq. reflexivity.
Qed.

Lemma atleast_1d_length (p : value) :
  p <> Sequence [] -> (1 <= length (atleast_1d p))%nat.
Proof.
  destruct p as [v | [| v a]]; simpl; intros H; [lia | congruence | lia].
Qed.

(** C8 (as the code has it): when [_setup_potential] runs on a parameter
    set that contains omega, a number or a sequence, the stored omega is
    the 1-D form of the input and ndim is its length; that length is at
    least 1 unless omega was given as an empty sequence; running the setup
    again on the result with the same parameter set, or with the stored
    one, gives the same instance.  No other method of the class writes to
    the instance. *)
Theorem C8_setup_ndim_is_len_omega :
  forall (self : instance) (params : gmap string value) (p : value),
    params !! "omega" = Some p ->
    exists self' : instance,
      _setup_potential self params = Ok self' /\
      parameters self' !! "omega" = Some (Sequence (atleast_1d p)) /\
      ndim self' = length (atleast_1d p) /\
      (p <> Sequence [] -> (1 <= ndim self')%nat) /\
      _setup_potential self' params = Ok self' /\
      _setup_potential self' (parameters self') = Ok self'.
Proof.
  intros self params p Hp. eexists. split; [apply setup_result, Hp |].
  cbn [parameters ndim].
  split; [apply lookup_insert_eq |]. split; [reflexivity |].
  split; [apply atleast_1d_length |].
  split; [apply setup_result, Hp |].
  rewrite (setup_result _ _ (Sequence (atleast_1d p)))
    by apply lookup_insert_eq.
  cbn [atleast_1d]. rewrite insert_insert_eq. reflexivity.
Qed.

Lemma C8_witness :
  exists self' : instance,
    _setup_potential (Instance ∅ 3) {["omega" := Scalar (Finite 2)]}
    = Ok self' /\
    parameters self' !! "omega" = Some (Sequence [Finite 2]) /\
    ndim self' = 1%nat /\
    (Scalar (Finite 2) <> Sequence [] -> (1 <= ndim self')%nat) /\
    _setup_potential self' {["omega" := Scalar (Finite 2)]} = Ok self' /\
    _setup_potential self' (parameters self') = Ok self'.
Proof.
  apply (C8_setup_ndim_is_len_omega
           (Instance ∅ 3) {["omega" := Scalar (Finite 2)]} (Scalar (Finite 2))).
  reflexivity.
Defined.

(** The setup on an empty sequence: the stored omega cannot have length
    at least 1. *)
Lemma C8_counterexample :
  ~ exists (self' : instance) (om : array1),
      _setup_potential (Instance ∅ 3) {["omega" := Sequence []]} = Ok self' /\
      parameters self' !! "omega" = Some (Sequence om) /\
      (1 <= length om)%nat /\
      ndim self' = length om.
Proof.
  intros (self' & om & Hs & Hom & Hlen & _).
  rewrite (setup_result _ _ (Sequence [])) in Hs by reflexivity.
  injection Hs as <-. cbn [parameters atleast_1d] in Hom.
  rewrite lookup_insert_eq in Hom. injection Hom as <-.
  simpl in Hlen. lia.
Qed.

End Harmonic.

(** ** KuzminPotential *)

Section Kuzmin.

Import KuzminPotential.

Lemma has_params_kuzmin (G m a : R) : has_params (kuzmin G m a) G m a.
Proof. repeat split. Qed.

Lemma rad_nonneg (a x y z : R) : 0 <= rad a x y z.
Proof.
  unfold rad. pose proof (pow2_ge_0 x). pose proof (pow2_ge_0 y).
  pose proof (pow2_ge_0 (a + Rabs z)). lra.
Qed.

Lemma rad_pos (a x y z : R) : rad a x y z <> 0 -> 0 < rad a x y z.
Proof. pose proof (rad_nonneg a x y z). lra. Qed.

Lemma radicand_negate (a : float) (x y z : array1) :
  radicand a x y (map neg z) = radicand a x y z.
Proof.
  unfold radicand. do 3 f_equal. rewrite map_map. apply map_ext, abs_neg.
Qed.

Lemma radicand_lookup (a : R) (xs ys zs : list R) (j : nat) (x y z : R) :
  xs !! j = Some x -> ys !! j = Some y -> zs !! j = Some z ->
  radicand (Finite a) (map Finite xs) (map Finite ys) (map Finite zs) !! j
  = Some (Finite (rad a x y z)).
Proof.
  intros Hx Hy Hz. unfold radicand.
  rewrite !lookup_zip_with, !list_lookup_fmap, Hx, Hy, Hz.
  cbn [fmap option_fmap option_map mbind option_bind abs add].
  rewrite !square_Finite. reflexivity.
Qed.

Lemma radicand_length (a : float) (x y z : array1) (n : nat) :
  length x = n -> length y = n -> length z = n ->
  length (radicand a x y z) = n.
Proof.
  intros Hx Hy Hz. unfold radicand.
  rewrite !length_zip_with, !length_map. lia.
Qed.

Lemma stretch_map {A B : Type} (f : A -> B) (k : nat) (l : list A) :
  stretch k (map f l) = map f (stretch k l).
Proof.
  destruct l as [| v [| w l]]; try reflexivity.
  simpl. symmetry. apply (fmap_replicate f).
Qed.

Lemma zip_with_mul_neg (u v : array1) :
  zip_with mul u (map neg v) = map neg (zip_with mul u v).
Proof.
  revert v. induction u as [| x u IH]; intros [| y v]; simpl;
    try reflexivity.
  rewrite mul_neg_r, IH. reflexivity.
Qed.

(** C6: for every Kuzmin instance and every batch, negating z leaves
    [_energy] unchanged, and turns the result of [_gradient] into the same
    array with its z component negated: the x and y components are
    unchanged and gradient_z(x, y, -z) = -gradient_z(x, y, z). *)
Theorem C6_negate_z :
  forall (self : instance) (q : array2) (t : float),
    _energy self (negate_z q) t = _energy self q t /\
    _gradient self (negate_z q) t = negate_z <$> _gradient self q t.
Proof.
  intros self [n rs] t. unfold negate_z. cbn [rows ncols].
  destruct rs as [| x [| y [| z [| w rs]]]]; try (split; reflexivity).
  unfold _energy, _gradient, unpack, fac. cbn [rows mbind result_bind].
  destruct (getitem (parameters self) "m") as [m | e];
    [| split; reflexivity].
  destruct (getitem (parameters self) "a") as [a | e];
    [| split; reflexivity].
  cbn [mbind result_bind]. rewrite radicand_negate.
  split; [reflexivity |].
  unfold broadcast2, newaxis, shape0. cbn [rows ncols length].
  rewrite broadcast_dim_1_l.
  destruct (broadcast_dim _ n) as [c |]; [| reflexivity].
  cbn [map stretch replicate zip_with fmap result_fmap rows ncols].
  rewrite (stretch_map neg), zip_with_mul_neg. reflexivity.
Qed.

Lemma energy_batch3 (self : instance) (G m a : R) (xs ys zs : list R)
    (t : float) :
  has_params self G m a ->
  _energy self (batch3 xs ys zs) t
  = Ok (map (div (Finite (- G * m)))
          (map sqrt (radicand (Finite a) (map Finite xs) (map Finite ys)
                       (map Finite zs)))).
Proof.
  intros (HG & Hm & Ha). unfold _energy, unpack, batch3, getitem.
  cbn [rows mbind result_bind]. rewrite Hm, Ha, HG. reflexivity.
Qed.

Lemma wf2_batch3 (xs ys zs : list R) :
  length ys = length xs -> length zs = length xs -> wf2 (batch3 xs ys zs).
Proof.
  intros Hy Hz. unfold wf2, batch3. cbn [rows ncols].
  repeat constructor; rewrite length_map; congruence.
Qed.

Lemma gradient_batch3 (self : instance) (G m a : R) (xs ys zs : list R)
    (t : float) :
  has_params self G m a ->
  length ys = length xs -> length zs = length xs ->
  _gradient self (batch3 xs ys zs) t
  = Ok (Array2 (length xs)
          (map (zip_with mul
                  (fac self (Finite m) (Finite a) (map Finite xs)
                     (map Finite ys) (map Finite zs)))
               [map Finite xs; map Finite ys; map Finite zs])).
Proof.
  intros (HG & Hm & Ha) Hy Hz. unfold _gradient, unpack, getitem.
  cbn [batch3 rows mbind result_bind]. rewrite Hm, Ha.
  cbn [mbind result_bind]. unfold newaxis.
  set (F := fac _ _ _ _ _ _).
  assert (HF : length F = length xs).
  { unfold F, fac. rewrite !length_map.
    apply radicand_length; rewrite length_map; congruence. }
  rewrite HF.
  apply (broadcast2_row mul F (batch3 xs ys zs) (wf2_batch3 _ _ _ Hy Hz) HF).
Qed.

Lemma energy_lookup (G m a : R) (xs ys zs : list R) (j : nat) (x y z : R) :
  xs !! j = Some x -> ys !! j = Some y -> zs !! j = Some z ->
  map (div (Finite (- G * m)))
    (map sqrt (radicand (Finite a) (map Finite xs) (map Finite ys)
                 (map Finite zs))) !! j
  = Some (div (Finite (- G * m)) (Finite (R_sqrt.sqrt (rad a x y z)))).
Proof.
  intros Hx Hy Hz.
  rewrite !list_lookup_fmap, (radicand_lookup a xs ys zs j x y z Hx Hy Hz).
  cbn [fmap option_fmap option_map].
  rewrite sqrt_Finite by apply rad_nonneg. reflexivity.
Qed.

Lemma sqrt_rad_neq_0 (a x y z : R) :
  rad a x y z <> 0 -> R_sqrt.sqrt (rad a x y z) <> 0.
Proof.
  intros H. pose proof (sqrt_lt_R0 _ (rad_pos _ _ _ _ H)). lra.
Qed.

Lemma fac_lookup (self : instance) (G m a : R) (xs ys zs : list R) (j : nat)
    (x y z : R) :
  KuzminPotential.G self = Finite G ->
  xs !! j = Some x -> ys !! j = Some y -> zs !! j = Some z ->
  rad a x y z <> 0 ->
  fac self (Finite m) (Finite a) (map Finite xs) (map Finite ys)
    (map Finite zs) !! j
  = Some (Finite (G * m / Rpower (rad a x y z) (3 / 2))).
Proof.
  intros HG Hx Hy Hz Hr. unfold fac.
  rewrite !list_lookup_fmap, (radicand_lookup a xs ys zs j x y z Hx Hy Hz).
  cbn [fmap option_fmap option_map].
  rewrite pow_1_5_Finite by (apply rad_pos, Hr). rewrite HG.
  cbn [mul]. rewrite div_Finite; [reflexivity |].
  unfold Rpower. pose proof (exp_pos (3 / 2 * ln (rad a x y z))). lra.
Qed.

(** C4: for every Kuzmin instance (G, m, a) and every batch of samples
    given as the coordinate arrays x, y, z, [_energy] returns one value
    per sample, which is -G*m / sqrt(x^2 + y^2 + (a + |z|)^2) (and is not
    finite where that square root is zero); for G = 1, m = 1, a = 1 and
    the sample (0, 0, 0) it returns -1.0. *)
Theorem C4_energy_formula :
  (forall (self : instance) (G m a : R) (xs ys zs : list R) (t : float),
      has_params self G m a ->
      length ys = length xs -> length zs = length xs ->
      exists es : array1,
        _energy self (batch3 xs ys zs) t = Ok es /\
        length es = length xs /\
        forall (j : nat) (x y z : R),
          xs !! j = Some x -> ys !! j = Some y -> zs !! j = Some z ->
          (rad a x y z <> 0 ->
           es !! j = Some (Finite (- G * m / R_sqrt.sqrt (rad a x y z)))) /\
          (rad a x y z = 0 ->
           exists v, es !! j = Some v /\ is_finite v = false))
  /\ (forall t : float,
        _energy (kuzmin 1 1 1) (batch3 [0] [0] [0]) t = Ok [Finite (-1)]).
Proof.
  split.
  - intros self G m a xs ys zs t Hp Hy Hz. eexists.
    split; [apply (energy_batch3 self G m a), Hp |].
    split.
    { rewrite !length_map. apply radicand_length; rewrite length_map;
        congruence. }
    intros j x y z Hx Hy' Hz'.
    rewrite (energy_lookup G m a xs ys zs j x y z Hx Hy' Hz'). split.
    + intros Hr. rewrite div_Finite by (apply sqrt_rad_neq_0, Hr).
      reflexivity.
    + intros Hr. rewrite Hr, sqrt_0. eexists. split; [reflexivity |].
      cbn [div]. rewrite Reqb_true by reflexivity.
      destruct (Reqb (- G * m) 0); reflexivity.
  - intros t. rewrite (energy_batch3 _ 1 1 1) by apply has_params_kuzmin.
    cbn [map radicand zip_with]. rewrite !square_Finite. cbn [abs add].
    rewrite square_Finite.
    replace (0 ^ 2 + 0 ^ 2 + (1 + Rabs 0) ^ 2) with 1
      by (rewrite Rabs_R0; ring).
    rewrite sqrt_Finite by lra. rewrite sqrt_1.
    rewrite div_Finite by lra. do 3 f_equal. lra.
Qed.

Lemma C4_witness :
  exists es : array1,
    _energy (kuzmin 1 2 3) (batch3 [1; 0] [0; 1] [2; 0]) NaN = Ok es /\
    length es = 2%nat /\
    forall (j : nat) (x y z : R),
      [1; 0] !! j = Some x -> [0; 1] !! j = Some y -> [2; 0] !! j = Some z ->
      (rad 3 x y z <> 0 ->
       es !! j = Some (Finite (- 1 * 2 / R_sqrt.sqrt (rad 3 x y z)))) /\
      (rad 3 x y z = 0 ->
       exists v, es !! j = Some v /\ is_finite v = false).
Proof.
  apply (proj1 C4_energy_formula (kuzmin 1 2 3) 1 2 3
           [1; 0] [0; 1] [2; 0] NaN).
  - apply has_params_kuzmin.
  - reflexivity.
  - reflexivity.
Defined.

(** C7: for G = 1, m = 1, a = 0 and the single sample (0, 0, 0) the
    divisor sqrt(x^2 + y^2 + (a + |z|)^2) of [_energy] is zero, and the
    division by it gives minus infinity, not a finite value. *)
Theorem C7_energy_singular_at_origin :
  forall t : float,
    map sqrt (radicand (Finite 0) [Finite 0] [Finite 0] [Finite 0])
    = [Finite 0] /\
    _energy (kuzmin 1 1 0) (batch3 [0] [0] [0]) t = Ok [Inf true] /\
    is_finite (Inf true) = false.
Proof.
  intros t.
  assert (Hd : map sqrt (radicand (Finite 0) [Finite 0] [Finite 0] [Finite 0])
               = [Finite 0]).
  { cbn [map radicand zip_with]. rewrite !square_Finite. cbn [abs add].
    rewrite square_Finite.
    replace (0 ^ 2 + 0 ^ 2 + (0 + Rabs 0) ^ 2) with 0
      by (rewrite Rabs_R0; ring).
    rewrite sqrt_Finite by lra. rewrite sqrt_0. reflexivity. }
  split; [exact Hd |]. split; [| reflexivity].
  rewrite (energy_batch3 _ 1 1 0) by apply has_params_kuzmin.
  cbn [map] in Hd |- *. rewrite Hd. cbn [map div].
  rewrite Reqb_true by reflexivity.
  rewrite Reqb_false by lra. rewrite Rltb_true by lra. reflexivity.
Qed.



(** *** The gradient against the derivative of the energy *)

Lemma list_singleton_lookup {A : Type} (l : list A) (v : A) :
  length l = 1%nat -> l !! 0%nat = Some v -> l = [v].
Proof.
  destruct l as [| w [| w' l]]; simpl; intros Hl Hv; try discriminate.
  injection Hv as ->. reflexivity.
Qed.

Lemma energy_at_eq (self : instance) (G m a x y z : R) :
  has_params self G m a ->
  energy_at self x y z = - G * m / R_sqrt.sqrt (rad a x y z).
Proof.
  intros Hp. unfold energy_at. rewrite (energy_batch3 self G m a) by exact Hp.
  pose proof (energy_lookup G m a [x] [y] [z] 0 x y z eq_refl eq_refl eq_refl)
    as Hv.
  apply list_singleton_lookup in Hv;
    [| rewrite !length_map; apply radicand_length; reflexivity].
  rewrite Hv.
  destruct (Req_dec_T (R_sqrt.sqrt (rad a x y z)) 0) as [Hs | Hs].
  - rewrite Hs. cbn [div]. rewrite Reqb_true by reflexivity.
    unfold Rdiv. rewrite Rinv_0, Rmult_0_r.
    destruct (Reqb (- G * m) 0); reflexivity.
  - rewrite div_Finite by exact Hs. reflexivity.
Qed.

Lemma gradient_at_eq (self : instance) (G m a x y z : R) :
  has_params self G m a -> rad a x y z <> 0 ->
  gradient_at self x y z
  = Some (G * m / Rpower (rad a x y z) (3 / 2) * x,
          G * m / Rpower (rad a x y z) (3 / 2) * y,
          G * m / Rpower (rad a x y z) (3 / 2) * z).
Proof.
  intros Hp Hr. unfold gradient_at.
  rewrite (gradient_batch3 self G m a [x] [y] [z]) by (exact Hp || reflexivity).
  pose proof (fac_lookup self G m a [x] [y] [z] 0 x y z (proj1 Hp)
                eq_refl eq_refl eq_refl Hr) as Hv.
  apply list_singleton_lookup in Hv;
    [| unfold fac; rewrite !length_map; apply radicand_length; reflexivity].
  rewrite Hv. reflexivity.
Qed.

Lemma Rpower_3_2 (r : R) : 0 < r -> Rpower r (3 / 2) = r * R_sqrt.sqrt r.
Proof.
  intros Hr. replace (3 / 2) with (1 + / 2) by lra.
  rewrite Rpower_plus, Rpower_1, Rpower_sqrt by exact Hr. reflexivity.
Qed.

(** The derivative of c / sqrt(h) where h is positive. *)
Lemma derivable_pt_lim_inv_sqrt (h : R -> R) (c u h' : R) :
  derivable_pt_lim h u h' -> 0 < h u ->
  derivable_pt_lim (fun v => c / R_sqrt.sqrt (h v)) u
    (- c * h' / (2 * Rpower (h u) (3 / 2))).
Proof.
  intros Hd Hpos.
  pose proof (sqrt_lt_R0 _ Hpos) as Hs.
  pose proof (derivable_pt_lim_comp h R_sqrt.sqrt u h' _ Hd
                (derivable_pt_lim_sqrt (h u) Hpos)) as Hc.
  pose proof (derivable_pt_lim_div (fct_cte c) (comp R_sqrt.sqrt h) u 0 _
                (derivable_pt_lim_const c u) Hc) as Hq.
  unfold comp in Hq at 1. specialize (Hq ltac:(lra)).
  replace (- c * h' / (2 * Rpower (h u) (3 / 2)))
    with ((0 * comp R_sqrt.sqrt h u
           - / (2 * R_sqrt.sqrt (h u)) * h' * fct_cte c u)
          / Rsqr (comp R_sqrt.sqrt h u)).
  - exact Hq.
  - unfold comp, fct_cte. rewrite Rsqr_sqrt by lra.
    rewrite Rpower_3_2 by exact Hpos. field. lra.
Qed.

Lemma derivable_pt_lim_Rabs (z : R) :
  z <> 0 -> derivable_pt_lim Rabs z (z / Rabs z).
Proof.
  intros Hz. destruct (Rlt_dec 0 z) as [Hpos | Hneg].
  - rewrite Rabs_right by lra. replace (z / z) with 1 by (field; lra).
    apply Rabs_derive_1, Hpos.
  - rewrite Rabs_left by lra. replace (z / - z) with (-1) by (field; lra).
    apply Rabs_derive_2. lra.
Qed.

Lemma rad_dx (a x y z : R) :
  derivable_pt_lim (fun x' => rad a x' y z) x (2 * x).
Proof.
  unfold rad.
  apply (derivable_pt_lim_ext
           ((fun v => v ^ 2) + fct_cte (y ^ 2) + fct_cte ((a + Rabs z) ^ 2))%F);
    [reflexivity |].
  replace (2 * x) with (INR 2 * x ^ Nat.pred 2 + 0 + 0) by (simpl; ring).
  repeat apply derivable_pt_lim_plus;
    [apply derivable_pt_lim_pow | apply derivable_pt_lim_const ..].
Qed.

Lemma rad_dy (a x y z : R) :
  derivable_pt_lim (fun y' => rad a x y' z) y (2 * y).
Proof.
  unfold rad.
  apply (derivable_pt_lim_ext
           (fct_cte (x ^ 2) + (fun v => v ^ 2) + fct_cte ((a + Rabs z) ^ 2))%F);
    [reflexivity |].
  replace (2 * y) with (0 + INR 2 * y ^ Nat.pred 2 + 0) by (simpl; ring).
  repeat apply derivable_pt_lim_plus;
    [apply derivable_pt_lim_const | apply derivable_pt_lim_pow
    | apply derivable_pt_lim_const].
Qed.

Lemma rad_dz (a x y z : R) :
  z <> 0 ->
  derivable_pt_lim (fun z' => rad a x y z') z
    (2 * ((a + Rabs z) * (z / Rabs z))).
Proof.
  intros Hz. unfold rad.
  apply (derivable_pt_lim_ext
           (fct_cte (x ^ 2 + y ^ 2)
            + comp (fun v => v ^ 2) (fct_cte a + Rabs))%F);
    [reflexivity |].
  replace (2 * ((a + Rabs z) * (z / Rabs z)))
    with (0 + INR 2 * (fct_cte a + Rabs)%F z ^ Nat.pred 2 * (0 + z / Rabs z))
    by (unfold plus_fct, fct_cte; simpl; ring).
  apply derivable_pt_lim_plus; [apply derivable_pt_lim_const |].
  apply derivable_pt_lim_comp; [| apply derivable_pt_lim_pow].
  apply derivable_pt_lim_plus;
    [apply derivable_pt_lim_const | apply derivable_pt_lim_Rabs, Hz].
Qed.

(** The partial derivatives of the energy.  In x and in y they are the
    components that [_gradient] returns. *)
Lemma energy_dx (self : instance) (G m a x y z : R) :
  has_params self G m a -> rad a x y z <> 0 ->
  derivable_pt_lim (fun x' => energy_at self x' y z) x
    (G * m / Rpower (rad a x y z) (3 / 2) * x).
Proof.
  intros Hp Hr.
  apply (derivable_pt_lim_ext
           (fun x' => - G * m / R_sqrt.sqrt (rad a x' y z)));
    [intros x'; symmetry; apply energy_at_eq, Hp |].
  pose proof (rad_pos _ _ _ _ Hr) as Hpos.
  pose proof (derivable_pt_lim_inv_sqrt (fun x' => rad a x' y z) (- G * m) x _
                (rad_dx a x y z) Hpos) as H.
  replace (G * m / Rpower (rad a x y z) (3 / 2) * x)
    with (- (- G * m) * (2 * x) / (2 * Rpower (rad a x y z) (3 / 2))).
  - exact H.
  - field. unfold Rpower.
    pose proof (exp_pos (3 / 2 * ln (rad a x y z))). lra.
Qed.

Lemma energy_dy (self : instance) (G m a x y z : R) :
  has_params self G m a -> rad a x y z <> 0 ->
  derivable_pt_lim (fun y' => energy_at self x y' z) y
    (G * m / Rpower (rad a x y z) (3 / 2) * y).
Proof.
  intros Hp Hr.
  apply (derivable_pt_lim_ext
           (fun y' => - G * m / R_sqrt.sqrt (rad a x y' z)));
    [intros y'; symmetry; apply energy_at_eq, Hp |].
  pose proof (rad_pos _ _ _ _ Hr) as Hpos.
  pose proof (derivable_pt_lim_inv_sqrt (fun y' => rad a x y' z) (- G * m) y _
                (rad_dy a x y z) Hpos) as H.
  replace (G * m / Rpower (rad a x y z) (3 / 2) * y)
    with (- (- G * m) * (2 * y) / (2 * Rpower (rad a x y z) (3 / 2))).
  - exact H.
  - field. unfold Rpower.
    pose proof (exp_pos (3 / 2 * ln (rad a x y z))). lra.
Qed.

(** In z the derivative has the term a * z / |z| next to z, which the
    returned component fac * z lacks. *)
Lemma energy_dz (self : instance) (G m a x y z : R) :
  has_params self G m a -> rad a x y z <> 0 -> z <> 0 ->
  derivable_pt_lim (fun z' => energy_at self x y z') z
    (G * m / Rpower (rad a x y z) (3 / 2) * (z + a * (z / Rabs z))).
Proof.
  intros Hp Hr Hz.
  apply (derivable_pt_lim_ext
           (fun z' => - G * m / R_sqrt.sqrt (rad a x y z')));
    [intros z'; symmetry; apply energy_at_eq, Hp |].
  pose proof (rad_pos _ _ _ _ Hr) as Hpos.
  pose proof (derivable_pt_lim_inv_sqrt (fun z' => rad a x y z') (- G * m) z _
                (rad_dz a x y z Hz) Hpos) as H.
  assert (Habs : Rabs z <> 0) by (apply Rabs_no_R0, Hz).
  replace (G * m / Rpower (rad a x y z) (3 / 2) * (z + a * (z / Rabs z)))
    with (- (- G * m) * (2 * ((a + Rabs z) * (z / Rabs z)))
          / (2 * Rpower (rad a x y z) (3 / 2))).
  - exact H.
  - field. split; [exact Habs |]. unfold Rpower.
    pose proof (exp_pos (3 / 2 * ln (rad a x y z))). lra.
Qed.

(** The x and y components that [_gradient] returns are the partial
    derivatives of the energy; the z component is one exactly when the
    term a * z / |z| vanishes. *)
Lemma gradient_xy_derivative (self : instance) (G m a x y z : R) :
  has_params self G m a -> rad a x y z <> 0 ->
  exists gx gy gz : R,
    gradient_at self x y z = Some (gx, gy, gz) /\
    derivable_pt_lim (fun x' => energy_at self x' y z) x gx /\
    derivable_pt_lim (fun y' => energy_at self x y' z) y gy.
Proof.
  intros Hp Hr. do 3 eexists.
  split; [apply (gradient_at_eq self G m a), Hr; exact Hp |].
  split; [apply energy_dx | apply energy_dy]; assumption.
Qed.

Lemma gradient_z_derivative_iff (self : instance) (G m a x y z : R) :
  has_params self G m a -> rad a x y z <> 0 -> z <> 0 -> G * m <> 0 ->
  derivable_pt_lim (fun z' => energy_at self x y z') z
    (G * m / Rpower (rad a x y z) (3 / 2) * z)
  <-> a = 0.
Proof.
  intros Hp Hr Hz HGm.
  pose proof (energy_dz self G m a x y z Hp Hr Hz) as Hd.
  assert (Hpw : 0 < Rpower (rad a x y z) (3 / 2)) by apply exp_pos.
  assert (Habs : Rabs z <> 0) by (apply Rabs_no_R0, Hz).
  split.
  - intros H. pose proof (uniqueness_limite _ _ _ _ Hd H) as He.
    apply Rmult_eq_reg_l in He.
    2:{ intros H0. apply HGm.
        apply (Rmult_eq_reg_r (/ Rpower (rad a x y z) (3 / 2)));
          [rewrite Rmult_0_l; exact H0 | apply Rinv_neq_0_compat; lra]. }
    assert (Hq : a * (z / Rabs z) = 0) by lra.
    apply Rmult_integral in Hq. destruct Hq as [Ha | Hq]; [exact Ha |].
    exfalso. apply Hz. unfold Rdiv in Hq. apply Rmult_integral in Hq.
    destruct Hq as [Hq | Hq]; [exact Hq |].
    exfalso. revert Hq. apply Rinv_neq_0_compat, Habs.
  - intros ->. replace (z + 0 * (z / Rabs z)) with z in Hd by ring.
    exact Hd.
Qed.

Lemma rad_example : rad 1 0 0 1 = 4.
Proof. unfold rad. rewrite Rabs_R1. ring. Qed.

Lemma Rpower_4_3_2 : Rpower 4 (3 / 2) = 8.
Proof.
  rewrite Rpower_3_2 by lra. replace 4 with (2 * 2) by ring.
  rewrite sqrt_square by lra. ring.
Qed.

(** C2: for G = 1, m = 1, a = 1 and the sample (0, 0, 1), where z is not
    zero and x^2 + y^2 + (a + |z|)^2 = 4, [_gradient] returns
    (0, 0, 1/8), while the partial derivative of the energy in z is 1/4:
    the returned z component is not that derivative. *)
Theorem C2_gradient_z_differs_from_derivative :
  rad 1 0 0 1 <> 0 /\
  gradient_at (kuzmin 1 1 1) 0 0 1 = Some (0, 0, 1 / 8) /\
  derivable_pt_lim (fun z => energy_at (kuzmin 1 1 1) 0 0 z) 1 (1 / 4) /\
  ~ derivable_pt_lim (fun z => energy_at (kuzmin 1 1 1) 0 0 z) 1 (1 / 8).
Proof.
  assert (Hr : rad 1 0 0 1 <> 0) by (rewrite rad_example; lra).
  assert (Hd : derivable_pt_lim
                 (fun z => energy_at (kuzmin 1 1 1) 0 0 z) 1 (1 / 4)).
  { pose proof (energy_dz (kuzmin 1 1 1) 1 1 1 0 0 1
                  (has_params_kuzmin 1 1 1) Hr ltac:(lra)) as H.
    rewrite rad_example, Rpower_4_3_2, Rabs_R1 in H.
    replace (1 / 4) with (1 * 1 / 8 * (1 + 1 * (1 / 1))) by lra.
    exact H. }
  split; [exact Hr |]. split; [| split; [exact Hd |]].
  - rewrite (gradient_at_eq (kuzmin 1 1 1) 1 1 1 0 0 1
               (has_params_kuzmin 1 1 1) Hr).
    rewrite rad_example, Rpower_4_3_2. do 2 f_equal; [f_equal |]; lra.
  - intros H. pose proof (uniqueness_limite _ _ _ _ Hd H). lra.
Qed.

End Kuzmin.

(** * Further properties *)

(** ** HarmonicOscillatorPotential: shapes, errors, symmetries *)

Section HarmonicShapes.

Import HarmonicOscillatorPotential.

(** One row against any array: the columns broadcast or the operation
    raises; the row is combined with every row of the array. *)
Lemma broadcast2_single_row (f : float -> float -> float) (n : nat)
    (a : array1) (q : array2) :
  broadcast2 f (Array2 n [a]) q
  = match broadcast_dim n (ncols q) with
    | Some c =>
        Ok (Array2 c
              (map (fun r => zip_with f (stretch c a) (stretch c r)) (rows q)))
    | None => Raise ValueError
    end.
Proof.
  unfold broadcast2, shape0. cbn [rows ncols length].
  rewrite broadcast_dim_1_l.
  destruct (broadcast_dim n (ncols q)) as [c |]; [| reflexivity].
  cbn [map stretch].
  rewrite (stretch_id (length (rows q))) by apply length_map.
  rewrite zip_with_replicate_l by (rewrite length_map; reflexivity).
  do 2 f_equal.
  apply (map_map (stretch c) (zip_with f (stretch c a)) (rows q)).
Qed.

Lemma energy_general (self : instance) (p : value) (q : array2) (t : float) :
  parameters self !! "omega" = Some p ->
  _energy self q t
  = match broadcast_dim (length (atleast_1d p)) (ncols q) with
    | Some c =>
        Ok (map (fun r =>
                   sum1 (zip_with mul
                           (stretch c (map (mul (Finite 0.5))
                                         (map square (atleast_1d p))))
                           (stretch c (map square r))))
                (rows q))
    | None => Raise ValueError
    end.
Proof.
  intros Hp. unfold _energy, getitem. rewrite Hp. cbn [mbind result_bind].
  unfold newaxis, map2d. cbn [rows ncols map].
  rewrite broadcast2_single_row. cbn [ncols rows].
  destruct (broadcast_dim _ _) as [c |]; [| reflexivity].
  cbn [mbind result_bind mret result_ret]. unfold sum_axis1. cbn [rows].
  rewrite !map_map. reflexivity.
Qed.

Lemma gradient_general (self : instance) (p : value) (q : array2) (t : float) :
  parameters self !! "omega" = Some p ->
  _gradient self q t
  = match broadcast_dim (length (atleast_1d p)) (ncols q) with
    | Some c =>
        Ok (Array2 c
              (map (fun r => zip_with mul
                                (stretch c (map square (atleast_1d p)))
                                (stretch c r))
                   (rows q)))
    | None => Raise ValueError
    end.
Proof.
  intros Hp. unfold _gradient, getitem. rewrite Hp. cbn [mbind result_bind].
  unfold newaxis, map2d. cbn [rows ncols map].
  apply broadcast2_single_row.
Qed.

Lemma broadcast_dim_None (n k : nat) :
  broadcast_dim n k = None <-> n <> k /\ n <> 1%nat /\ k <> 1%nat.
Proof.
  unfold broadcast_dim.
  destruct (Nat.eqb_spec n k), (Nat.eqb_spec n 1), (Nat.eqb_spec k 1);
    split; intros H; try discriminate; try reflexivity;
    try (repeat split; assumption); destruct H as (? & ? & ?); congruence.
Qed.

(** X1: without a parameter "omega", the setup and the three evaluations
    all raise KeyError, whatever the batch. *)
Theorem X1_missing_omega_raises_KeyError :
  forall (self : instance) (params : gmap string value) (q : array2)
         (t : float),
    (params !! "omega" = None ->
     _setup_potential self params = Raise KeyError) /\
    (parameters self !! "omega" = None ->
     _energy self q t = Raise KeyError /\
     _gradient self q t = Raise KeyError /\
     _hessian self q t = Raise KeyError).
Proof.
  intros self params q t. split.
  - intros H. unfold _setup_potential, PotentialBase_setup_potential, getitem.
    cbn [parameters]. rewrite H. reflexivity.
  - intros H. unfold _energy, _gradient, _hessian, getitem. rewrite H.
    repeat split.
Qed.

Lemma X1_witness :
  (_setup_potential (Instance ∅ 3) ∅ = Raise KeyError) /\
  _energy (Instance ∅ 3) (batch 1 [[1]]) NaN = Raise KeyError /\
  _gradient (Instance ∅ 3) (batch 1 [[1]]) NaN = Raise KeyError /\
  _hessian (Instance ∅ 3) (batch 1 [[1]]) NaN = Raise KeyError.
Proof.
  split.
  - apply (proj1 (X1_missing_omega_raises_KeyError
                    (Instance ∅ 3) ∅ (batch 1 [[1]]) NaN)).
    reflexivity.
  - apply (proj2 (X1_missing_omega_raises_KeyError
                    (Instance ∅ 3) ∅ (batch 1 [[1]]) NaN)).
    reflexivity.
Defined.

(** X2: with omega of length n and a batch of k columns, [_energy] and
    [_gradient] raise ValueError exactly when n and k differ and neither
    is 1; [_hessian] never raises on such an instance. *)
Theorem X2_shape_error_iff :
  forall (self : instance) (p : value) (q : array2) (t : float),
    parameters self !! "omega" = Some p ->
    let n := length (atleast_1d p) in
    let k := ncols q in
    (_energy self q t = Raise ValueError
     <-> n <> k /\ n <> 1%nat /\ k <> 1%nat) /\
    (_gradient self q t = Raise ValueError
     <-> n <> k /\ n <> 1%nat /\ k <> 1%nat) /\
    (exists H, _hessian self q t = Ok H).
Proof.
  intros self p q t Hp n k. subst n k.
  rewrite (energy_general self p q t Hp), (gradient_general self p q t Hp).
  rewrite <- broadcast_dim_None.
  split; [| split].
  - destruct (broadcast_dim _ _); split; intros H;
      discriminate || reflexivity.
  - destruct (broadcast_dim _ _); split; intros H;
      discriminate || reflexivity.
  - unfold _hessian, getitem. rewrite Hp. eexists. reflexivity.
Qed.

Lemma X2_witness :
  (_energy (harmonic [1; 2]) (batch 3 [[1; 1; 1]]) NaN = Raise ValueError
   <-> 2%nat <> 3%nat /\ 2%nat <> 1%nat /\ 3%nat <> 1%nat) /\
  (_gradient (harmonic [1; 2]) (batch 3 [[1; 1; 1]]) NaN = Raise ValueError
   <-> 2%nat <> 3%nat /\ 2%nat <> 1%nat /\ 3%nat <> 1%nat) /\
  (exists H, _hessian (harmonic [1; 2]) (batch 3 [[1; 1; 1]]) NaN = Ok H).
Proof.
  apply (X2_shape_error_iff (harmonic [1; 2])
           (Sequence [Finite 1; Finite 2]) (batch 3 [[1; 1; 1]]) NaN).
  reflexivity.
Defined.

Lemma broadcast_dim_Some (n k c : nat) :
  broadcast_dim n k = Some c ->
  (n = k /\ c = n) \/ (n = 1%nat /\ c = k) \/ (k = 1%nat /\ c = n).
Proof.
  unfold broadcast_dim.
  destruct (Nat.eqb_spec n k), (Nat.eqb_spec n 1), (Nat.eqb_spec k 1);
    intros H; try discriminate; injection H as <-; auto.
Qed.

Lemma length_stretch_1 {A : Type} (c : nat) (l : list A) :
  length l = 1%nat -> length (stretch c l) = c.
Proof.
  destruct l as [| v [| w l]]; try discriminate. intros _.
  apply length_replicate.
Qed.

Lemma length_stretch_l {A : Type} (n k c : nat) (l : list A) :
  broadcast_dim n k = Some c -> length l = n -> length (stretch c l) = c.
Proof.
  intros Hc Hl.
  destruct (broadcast_dim_Some _ _ _ Hc) as [[-> ->] | [[-> ->] | [-> ->]]].
  - rewrite stretch_id; assumption.
  - apply length_stretch_1, Hl.
  - rewrite stretch_id; assumption.
Qed.

Lemma length_stretch_r {A : Type} (n k c : nat) (l : list A) :
  broadcast_dim n k = Some c -> length l = k -> length (stretch c l) = c.
Proof.
  intros Hc Hl.
  destruct (broadcast_dim_Some _ _ _ Hc) as [[-> ->] | [[-> ->] | [-> ->]]].
  - rewrite stretch_id; assumption.
  - rewrite stretch_id; assumption.
  - apply length_stretch_1, Hl.
Qed.

Lemma wf2_broadcast_rows (f : float -> float -> float) (n c : nat)
    (a : array1) (q : array2) :
  broadcast_dim n (ncols q) = Some c -> length a = n -> wf2 q ->
  wf2 (Array2 c
         (map (fun r => zip_with f (stretch c a) (stretch c r)) (rows q))).
Proof.
  intros Hc Ha Hq. unfold wf2 in *. cbn [rows ncols].
  rewrite Forall_map. eapply Forall_impl; [exact Hq |].
  intros r Hr. cbn beta in Hr |- *. rewrite length_zip_with.
  rewrite (length_stretch_l _ _ _ a Hc Ha), (length_stretch_r _ _ _ r Hc Hr).
  apply Nat.min_id.
Qed.

(** X3: whenever the length n of omega and the number k of columns of the
    batch broadcast to c (n = k, or one of them is 1), [_energy] returns
    one value per row of the batch and [_gradient] an array with as many
    rows as the batch and c columns, well formed if the batch is. *)
Theorem X3_result_shapes :
  forall (self : instance) (p : value) (q : array2) (t : float) (c : nat),
    parameters self !! "omega" = Some p ->
    broadcast_dim (length (atleast_1d p)) (ncols q) = Some c ->
    exists (es : array1) (g : array2),
      _energy self q t = Ok es /\ length es = shape0 q /\
      _gradient self q t = Ok g /\ shape g = (shape0 q, c) /\
      (wf2 q -> wf2 g).
Proof.
  intros self p q t c Hp Hc.
  rewrite (energy_general self p q t Hp), (gradient_general self p q t Hp), Hc.
  do 2 eexists. split; [reflexivity |].
  split; [apply length_map |]. split; [reflexivity |].
  split; [unfold shape, shape0; cbn [rows ncols]; rewrite length_map;
          reflexivity |].
  apply (wf2_broadcast_rows mul _ c _ q Hc). rewrite length_map. reflexivity.
Qed.

Lemma X3_witness :
  exists (es : array1) (g : array2),
    _energy (harmonic [2]) (batch 3 [[1; 1; 1]; [0; 1; 2]]) NaN = Ok es /\
    length es = 2%nat /\
    _gradient (harmonic [2]) (batch 3 [[1; 1; 1]; [0; 1; 2]]) NaN = Ok g /\
    shape g = (2%nat, 3%nat) /\
    (wf2 (batch 3 [[1; 1; 1]; [0; 1; 2]]) -> wf2 g).
Proof.
  apply (X3_result_shapes (harmonic [2]) (Sequence [Finite 2])
           (batch 3 [[1; 1; 1]; [0; 1; 2]]) NaN 3);
    reflexivity.
Defined.

Lemma square_neg (v : float) : square (neg v) = square v.
Proof.
  destruct v as [x | s |]; unfold square; cbn [neg mul]; try reflexivity.
  - f_equal. ring.
  - destruct s; reflexivity.
Qed.

Lemma map_square_negate (m : nat -> bool) (r : array1) :
  map square (imap (fun i v => if m i then neg v else v) r) = map square r.
Proof.
  apply list_eq. intros i.
  rewrite !list_lookup_fmap, list_lookup_imap.
  destruct (r !! i) as [v |]; [| reflexivity].
  cbn [fmap option_fmap option_map].
  destruct (m i); [rewrite square_neg |]; reflexivity.
Qed.

Lemma rows_square_negate (mask : nat -> nat -> bool) (rs : list (list float)) :
  map (map square)
    (imap (fun j r => imap (fun i v => if mask j i then neg v else v) r) rs)
  = map (map square) rs.
Proof.
  apply list_eq. intros j.
  rewrite !list_lookup_fmap, list_lookup_imap.
  destruct (rs !! j) as [r |]; [| reflexivity].
  cbn [fmap option_fmap option_map].
  rewrite (map_square_negate (mask j)). reflexivity.
Qed.

(** X4: [_energy] does not change when any entries of the batch are
    negated (any coordinates of any samples): only their squares enter.
    This holds for every instance and every batch, whatever the outcome. *)
Theorem X4_energy_even :
  forall (self : instance) (mask : nat -> nat -> bool) (q : array2)
         (t : float),
    _energy self (negate_where mask q) t = _energy self q t.
Proof.
  intros self mask q t. unfold _energy, negate_where, map2d.
  cbn [rows ncols]. rewrite rows_square_negate. reflexivity.
Qed.

(** X5: [_gradient] is odd: on the negated batch it returns the negated
    array, and raises in the same cases. *)
Theorem X5_gradient_odd :
  forall (self : instance) (q : array2) (t : float),
    _gradient self (map2d neg q) t = map2d neg <$> _gradient self q t.
Proof.
  intros self q t.
  destruct (parameters self !! "omega") as [p |] eqn:Hp.
  - rewrite (gradient_general self p (map2d neg q) t Hp),
      (gradient_general self p q t Hp).
    unfold map2d. cbn [ncols rows].
    destruct (broadcast_dim _ _) as [c |]; [| reflexivity].
    cbn [fmap result_fmap rows ncols].
    do 2 f_equal. rewrite !map_map. apply map_ext. intros r.
    rewrite (stretch_map neg), zip_with_mul_neg. reflexivity.
  - unfold _gradient, getitem. rewrite Hp. reflexivity.
Qed.

(** X6: the rows of a batch are evaluated independently: on two batches
    of the same width put one after the other, [_energy] returns the two
    results one after the other, and so does [_gradient]; an error of
    either part is the error of the whole. *)
Theorem X6_batches_concatenate :
  forall (self : instance) (k : nat) (r1 r2 : list (list float)) (t : float),
    _energy self (concat_rows k r1 r2) t
    = (e1 ← _energy self (Array2 k r1) t;
       e2 ← _energy self (Array2 k r2) t;
       mret (e1 ++ e2)) /\
    _gradient self (concat_rows k r1 r2) t
    = (g1 ← _gradient self (Array2 k r1) t;
       g2 ← _gradient self (Array2 k r2) t;
       mret (Array2 (ncols g1) (rows g1 ++ rows g2))).
Proof.
  intros self k r1 r2 t. unfold concat_rows.
  destruct (parameters self !! "omega") as [p |] eqn:Hp.
  - rewrite !(energy_general self p _ t Hp), !(gradient_general self p _ t Hp).
    cbn [ncols rows].
    destruct (broadcast_dim _ _) as [c |]; [| split; reflexivity].
    cbn [mbind result_bind mret result_ret rows ncols].
    rewrite !map_app. split; reflexivity.
  - unfold _energy, _gradient, getitem. rewrite Hp. split; reflexivity.
Qed.

(** X7: a single frequency applies to every axis.  With omega a number
    (or a sequence of length 1) equal to w, a batch of any width k is
    accepted: [_energy] returns for each row x the sum over its k axes of
    0.5 * w^2 * x_i^2, and [_gradient] returns w^2 * x_i at every entry. *)
Theorem X7_single_frequency_broadcasts :
  forall (self : instance) (w : R) (k : nat) (xs : list (list R)) (t : float),
    has_omega self [w] ->
    Forall (fun x => length x = k) xs ->
    _energy self (batch k xs) t
    = Ok (map (fun x => Finite (sigma
                (fun i => 0.5 * w ^ 2 * nth i x 0 ^ 2) k)) xs) /\
    _gradient self (batch k xs) t
    = Ok (batch k (map (map (fun xi => w ^ 2 * xi)) xs)).
Proof.
  intros self w k xs t (p & Hp & Hom) Hxs.
  rewrite (energy_general self p _ t Hp), (gradient_general self p _ t Hp).
  rewrite Hom. cbn [map length batch ncols rows].
  rewrite broadcast_dim_1_l. cbn [stretch]. split.
  - f_equal. rewrite map_map. apply map_ext_Forall.
    eapply Forall_impl; [exact Hxs |]. intros x Hx. cbn beta in Hx |- *.
    rewrite stretch_id by (rewrite !length_map; exact Hx).
    rewrite zip_with_replicate_l by (rewrite !length_map; lia).
    assert (He : mul (mul (Finite 0.5) (square (Finite w)))
                   <$> map square (map Finite x)
                 = map Finite (map (fun xi => 0.5 * w ^ 2 * xi ^ 2) x)).
    { rewrite map_square_Finite, square_Finite.
      change (@fmap list _) with (@map). rewrite !map_map. reflexivity. }
    rewrite He, sum1_Finite, length_map, Hx. f_equal.
    apply sigma_ext. intros i Hi. apply nth_map_R. lia.
  - unfold batch. do 2 f_equal. rewrite !map_map. apply map_ext_Forall.
    eapply Forall_impl; [exact Hxs |]. intros x Hx. cbn beta in Hx |- *.
    rewrite stretch_id by (rewrite !length_map; exact Hx).
    rewrite zip_with_replicate_l by (rewrite !length_map; lia).
    rewrite square_Finite. change (@fmap list _) with (@map).
    rewrite !map_map. reflexivity.
Qed.

Lemma X7_witness :
  _energy (harmonic [2]) (batch 3 [[1; 1; 1]]) NaN
  = Ok (map (fun x => Finite (sigma
              (fun i => 0.5 * 2 ^ 2 * nth i x 0 ^ 2) 3)) [[1; 1; 1]]) /\
  _gradient (harmonic [2]) (batch 3 [[1; 1; 1]]) NaN
  = Ok (batch 3 (map (map (fun xi => 2 ^ 2 * xi)) [[1; 1; 1]])).
Proof.
  apply (X7_single_frequency_broadcasts (harmonic [2]) 2 3 [[1; 1; 1]] NaN).
  - apply has_omega_harmonic.
  - repeat constructor.
Defined.

(** X8: for any stored omega (finite or not) and any batch, whatever its
    width, [_hessian] returns a well-formed array of shape
    ndim x ndim x N with N the number of rows of the batch; its entry
    (i, j, k) is omega_i when i = j and 0.0 otherwise, for every sample k.
    It reads nothing of the batch but its number of rows. *)
Theorem X8_hessian_entries :
  forall (self : instance) (p : value) (q : array2) (t : float),
    parameters self !! "omega" = Some p ->
    exists H : array3,
      _hessian self q t = Ok H /\
      shape3 H = (length (atleast_1d p), length (atleast_1d p), shape0 q) /\
      wf3 H /\
      forall (i j k : nat) (v : float),
        atleast_1d p !! i = Some v ->
        (j < length (atleast_1d p))%nat -> (k < shape0 q)%nat ->
        item3 H i j k = Some (if Nat.eqb i j then v else Finite 0).
Proof.
  intros self p q t Hp. unfold _hessian, getitem. rewrite Hp.
  cbn [mbind result_bind mret result_ret].
  set (om := atleast_1d p).
  eexists. split; [reflexivity |].
  unfold tile_last, diag, shape3, wf3, item3. cbn [data dim1 dim2 ncols rows].
  rewrite !length_map, length_imap.
  split; [reflexivity |]. split.
  - rewrite Forall_map. apply Forall_lookup. intros i m Hi.
    rewrite list_lookup_imap in Hi.
    destruct (om !! i) as [v |]; [| discriminate].
    injection Hi as <-.
    rewrite length_map, length_insert, length_replicate.
    split; [reflexivity |].
    rewrite Forall_map. apply Forall_forall. intros v' _.
    apply length_replicate.
  - intros i j k v Hv Hj Hk.
    pose proof (lookup_lt_Some _ _ _ Hv) as Hi.
    rewrite list_lookup_fmap, list_lookup_imap, Hv.
    cbn [fmap option_fmap option_map]. rewrite list_lookup_fmap.
    destruct (Nat.eqb_spec i j) as [<- | Hne].
    + rewrite list_lookup_insert_eq by (rewrite length_replicate; lia).
      cbn [fmap option_fmap option_map]. apply lookup_replicate_2, Hk.
    + rewrite list_lookup_insert_ne by exact Hne.
      rewrite lookup_replicate_2 by lia.
      cbn [fmap option_fmap option_map]. apply lookup_replicate_2, Hk.
Qed.

Lemma X8_witness :
  exists H : array3,
    _hessian (harmonic [2; 3]) (batch 5 [[1; 1; 1; 1; 1]]) NaN = Ok H /\
    shape3 H = (2%nat, 2%nat, 1%nat) /\
    wf3 H /\
    forall (i j k : nat) (v : float),
      [Finite 2; Finite 3] !! i = Some v ->
      (j < 2)%nat -> (k < 1)%nat ->
      item3 H i j k = Some (if Nat.eqb i j then v else Finite 0).
Proof.
  apply (X8_hessian_entries (harmonic [2; 3])
           (Sequence [Finite 2; Finite 3]) (batch 5 [[1; 1; 1; 1; 1]]) NaN).
  reflexivity.
Defined.

(** X9: the setup makes ndim the accepted width.  After a successful
    [_setup_potential], every well-formed batch with ndim columns is
    accepted, whatever its entries: [_energy] returns one value per row,
    [_gradient] a well-formed array of the shape of the batch, and
    [_hessian] an array of shape ndim x ndim x N. *)
Theorem X9_setup_then_evaluate :
  forall (self self' : instance) (params : gmap string value) (q : array2)
         (t : float),
    _setup_potential self params = Ok self' ->
    wf2 q -> ncols q = ndim self' ->
    exists (es : array1) (g : array2) (H : array3),
      _energy self' q t = Ok es /\ length es = shape0 q /\
      _gradient self' q t = Ok g /\ shape g = shape q /\ wf2 g /\
      _hessian self' q t = Ok H /\
      shape3 H = (ndim self', ndim self', shape0 q).
Proof.
  intros self self' params q t Hs Hq Hk.
  destruct (params !! "omega") as [p |] eqn:Hp.
  2:{ unfold _setup_potential, PotentialBase_setup_potential, getitem in Hs.
      cbn [parameters] in Hs. rewrite Hp in Hs. discriminate Hs. }
  rewrite (setup_result self params p Hp) in Hs. injection Hs as <-.
  cbn [ndim] in Hk |- *.
  set (P := <["omega" := Sequence (atleast_1d p)]> params).
  set (n := length (atleast_1d p)) in *.
  assert (HP : parameters (Instance P n) !! "omega"
               = Some (Sequence (atleast_1d p))).
  { cbn [parameters]. apply lookup_insert_eq. }
  assert (Hc : broadcast_dim (length (atleast_1d (Sequence (atleast_1d p))))
                 (ncols q) = Some (ncols q)).
  { cbn [atleast_1d]. fold n. rewrite Hk. apply broadcast_dim_refl. }
  rewrite (energy_general _ _ q t HP), (gradient_general _ _ q t HP), Hc.
  do 3 eexists. split; [reflexivity |].
  split; [apply length_map |]. split; [reflexivity |].
  split; [unfold shape, shape0; cbn [rows ncols]; rewrite length_map;
          reflexivity |].
  split.
  { apply (wf2_broadcast_rows mul _ _ _ q Hc); [| exact Hq].
    rewrite length_map. reflexivity. }
  unfold _hessian, getitem. rewrite HP.
  cbn [mbind result_bind mret result_ret]. split; [reflexivity |].
  unfold shape3, tile_last, diag. cbn [data dim1 dim2 ncols rows atleast_1d].
  rewrite !length_map, length_imap. reflexivity.
Qed.

Lemma X9_witness :
  exists (es : array1) (g : array2) (H : array3),
    _energy (Instance {["omega" := Sequence [Finite 2]]} 1)
      (Array2 1 [[NaN]; [Inf true]]) NaN = Ok es /\
    length es = 2%nat /\
    _gradient (Instance {["omega" := Sequence [Finite 2]]} 1)
      (Array2 1 [[NaN]; [Inf true]]) NaN = Ok g /\
    shape g = (2%nat, 1%nat) /\ wf2 g /\
    _hessian (Instance {["omega" := Sequence [Finite 2]]} 1)
      (Array2 1 [[NaN]; [Inf true]]) NaN = Ok H /\
    shape3 H = (1%nat, 1%nat, 2%nat).
Proof.
  apply (X9_setup_then_evaluate (Instance ∅ 3)
           (Instance {["omega" := Sequence [Finite 2]]} 1)
           {["omega" := Scalar (Finite 2)]}
           (Array2 1 [[NaN]; [Inf true]]) NaN).
  - reflexivity.
  - repeat constructor.
  - reflexivity.
Defined.

(** *** The gradient against the derivative of the energy *)

Lemma harmonic_energy_at_eq (self : instance) (omega x : list R) :
  has_omega self omega -> length x = length omega ->
  harmonic_energy_at self x
  = sigma (fun i => 0.5 * nth i omega 0 ^ 2 * nth i x 0 ^ 2) (length omega).
Proof.
  intros Hom Hx. unfold harmonic_energy_at. rewrite Hx.
  rewrite (energy_rows self omega [x] (Finite 0) Hom)
    by (repeat constructor; exact Hx).
  reflexivity.
Qed.

Lemma harmonic_gradient_at_eq (self : instance) (omega x : list R) :
  has_omega self omega -> length x = length omega ->
  harmonic_gradient_at self x
  = Some (map (fun i => nth i omega 0 ^ 2 * nth i x 0) (seq 0 (length omega))).
Proof.
  intros Hom Hx. unfold harmonic_gradient_at. rewrite Hx.
  rewrite (gradient_rows self omega [x] (Finite 0) Hom)
    by (repeat constructor; exact Hx).
  cbn [batch rows map]. f_equal. rewrite map_map. apply map_id.
Qed.

Lemma derivable_pt_lim_sigma (F : R -> nat -> R) (d : nat -> R) (u : R)
    (n : nat) :
  (forall j, (j < n)%nat -> derivable_pt_lim (fun v => F v j) u (d j)) ->
  derivable_pt_lim (fun v => sigma (F v) n) u (sigma d n).
Proof.
  induction n as [| n IH]; intros H; cbn [sigma].
  - apply derivable_pt_lim_const.
  - apply (derivable_pt_lim_plus (fun v => sigma (F v) n) (fun v => F v n)).
    + apply IH. intros j Hj. apply H. lia.
    + apply H. lia.
Qed.

Lemma sigma_single (c : R) (i n : nat) :
  (i < n)%nat -> sigma (fun j => if Nat.eqb j i then c else 0) n = c.
Proof.
  intros Hi. induction n as [| n IH]; [lia |]. cbn [sigma].
  destruct (Nat.eqb_spec n i) as [-> | Hne].
  - rewrite (sigma_ext _ (fun _ => 0)).
    + assert (Hz : forall k, sigma (fun _ => 0) k = 0).
      { intros k. induction k as [| k IHk]; cbn [sigma]; lra. }
      rewrite Hz. lra.
    + intros j Hj. destruct (Nat.eqb_spec j i); [lia | reflexivity].
  - rewrite IH by lia. lra.
Qed.

Lemma nth_insert_eq (x : list R) (i : nat) (u : R) :
  (i < length x)%nat -> nth i (<[i := u]> x) 0 = u.
Proof.
  intros Hi. apply nth_lookup_Some, list_lookup_insert_eq, Hi.
Qed.

Lemma nth_insert_ne (x : list R) (i j : nat) (u : R) :
  i <> j -> nth j (<[i := u]> x) 0 = nth j x 0.
Proof.
  intros Hne. rewrite !nth_lookup, list_lookup_insert_ne by exact Hne.
  reflexivity.
Qed.

Lemma nth_map_seq (f : nat -> R) (n i : nat) :
  (i < n)%nat -> nth i (map f (seq 0 n)) 0 = f i.
Proof.
  intros Hi. apply nth_lookup_Some.
  rewrite list_lookup_fmap, lookup_seq_lt by exact Hi. reflexivity.
Qed.

(** X10: [_gradient] is the gradient of [_energy].  For real frequencies
    omega, a sample x of the same length and an axis i, the i-th
    component that [_gradient] returns is the derivative of the energy of
    the sample with respect to its i-th coordinate. *)
Theorem X10_gradient_is_derivative_of_energy :
  forall (self : instance) (omega x : list R) (i : nat),
    has_omega self omega -> length x = length omega ->
    (i < length omega)%nat ->
    exists g : list R,
      harmonic_gradient_at self x = Some g /\
      length g = length omega /\
      derivable_pt_lim (fun u => harmonic_energy_at self (<[i := u]> x))
        (nth i x 0) (nth i g 0).
Proof.
  intros self omega x i Hom Hx Hi. eexists.
  split; [apply (harmonic_gradient_at_eq self omega x Hom Hx) |].
  split; [rewrite length_map, length_seq; reflexivity |].
  rewrite (nth_map_seq (fun i => nth i omega 0 ^ 2 * nth i x 0)) by exact Hi.
  apply (derivable_pt_lim_ext
           (fun u => sigma (fun j => 0.5 * nth j omega 0 ^ 2
                                     * nth j (<[i := u]> x) 0 ^ 2)
                       (length omega))).
  { intros u. symmetry. apply harmonic_energy_at_eq; [exact Hom |].
    rewrite length_insert. exact Hx. }
  rewrite <- (sigma_single (nth i omega 0 ^ 2 * nth i x 0) i (length omega) Hi).
  apply (derivable_pt_lim_sigma
           (fun u j => 0.5 * nth j omega 0 ^ 2 * nth j (<[i := u]> x) 0 ^ 2)).
  intros j Hj. destruct (Nat.eqb_spec j i) as [-> | Hne].
  - apply (derivable_pt_lim_ext
             (mult_real_fct (0.5 * nth i omega 0 ^ 2) (fun u => u ^ 2))).
    { intros u. unfold mult_real_fct. rewrite nth_insert_eq by lia.
      reflexivity. }
    assert (E : INR 2 = 2) by (simpl; lra).
    replace (nth i omega 0 ^ 2 * nth i x 0)
      with (0.5 * nth i omega 0 ^ 2 * (INR 2 * nth i x 0 ^ Nat.pred 2))
      by (rewrite E; cbn [Nat.pred]; nra).
    apply derivable_pt_lim_scal, derivable_pt_lim_pow.
  - apply (derivable_pt_lim_ext
             (fct_cte (0.5 * nth j omega 0 ^ 2 * nth j x 0 ^ 2))).
    { intros u. unfold fct_cte. rewrite nth_insert_ne by congruence.
      reflexivity. }
    apply derivable_pt_lim_const.
Qed.

Lemma X10_witness :
  exists g : list R,
    harmonic_gradient_at (harmonic [1; 2]) [3; 4] = Some g /\
    length g = 2%nat /\
    derivable_pt_lim
      (fun u => harmonic_energy_at (harmonic [1; 2]) (<[1%nat := u]> [3; 4]))
      4 (nth 1 g 0).
Proof.
  apply (X10_gradient_is_derivative_of_energy
           (harmonic [1; 2]) [1; 2] [3; 4] 1%nat).
  - apply has_omega_harmonic.
  - reflexivity.
  - repeat constructor.
Defined.

Lemma sigma_scal (c : R) (f : nat -> R) (n : nat) :
  c * sigma f n = sigma (fun i => c * f i) n.
Proof.
  induction n as [| n IH]; cbn [sigma]; [ring |]. rewrite <- IH. ring.
Qed.

(** X18: energy and gradient agree as a quadratic form and its gradient
    must: for real frequencies and a batch of matching width, the value
    of [_energy] at a sample is half the dot product of the sample with
    the row that [_gradient] returns for it. *)
Theorem X18_energy_is_half_x_dot_gradient :
  forall (self : instance) (omega : list R) (xs : list (list R)) (t : float),
    has_omega self omega ->
    Forall (fun x => length x = length omega) xs ->
    exists (es : list R) (gs : list (list R)),
      _energy self (batch (length omega) xs) t = Ok (map Finite es) /\
      _gradient self (batch (length omega) xs) t
      = Ok (batch (length omega) gs) /\
      forall (j : nat) (x gr : list R) (e : R),
        xs !! j = Some x -> es !! j = Some e -> gs !! j = Some gr ->
        e = 0.5 * sigma (fun i => nth i x 0 * nth i gr 0) (length omega).
Proof.
  intros self omega xs t Hom Hxs.
  exists (map (fun x => sigma
                 (fun i => 0.5 * nth i omega 0 ^ 2 * nth i x 0 ^ 2)
                 (length omega)) xs),
         (map (fun x => map (fun i => nth i omega 0 ^ 2 * nth i x 0)
                            (seq 0 (length omega))) xs).
  split; [rewrite (energy_rows self omega xs t Hom Hxs), map_map;
          reflexivity |].
  split; [apply (gradient_rows self omega xs t Hom Hxs) |].
  intros j x gr e Hx He Hg.
  rewrite list_lookup_fmap, Hx in He. injection He as <-.
  rewrite list_lookup_fmap, Hx in Hg. injection Hg as <-.
  rewrite sigma_scal. apply sigma_ext. intros i Hi.
  rewrite nth_map_seq by exact Hi. ring.
Qed.

Lemma X18_witness :
  exists (es : list R) (gs : list (list R)),
    _energy (harmonic [1; 2]) (batch 2 [[3; 4]]) NaN = Ok (map Finite es) /\
    _gradient (harmonic [1; 2]) (batch 2 [[3; 4]]) NaN = Ok (batch 2 gs) /\
    forall (j : nat) (x gr : list R) (e : R),
      [[3; 4]] !! j = Some x -> es !! j = Some e -> gs !! j = Some gr ->
      e = 0.5 * sigma (fun i => nth i x 0 * nth i gr 0) 2.
Proof.
  apply (X18_energy_is_half_x_dot_gradient (harmonic [1; 2]) [1; 2]
           [[3; 4]] NaN).
  - apply has_omega_harmonic.
  - repeat constructor.
Defined.



End HarmonicShapes.

(** ** KuzminPotential: errors, the gradient, singular samples *)

Section KuzminMore.

Import KuzminPotential.

Lemma unpack_not_3 (q : array2) :
  shape0 q <> 3%nat -> unpack q = Raise ValueError.
Proof.
  unfold unpack, shape0.
  destruct (rows q) as [| x [| y [| z [| w rs]]]]; cbn [length]; intros H;
    try reflexivity; lia.
Qed.

Lemma unpack_3 (q : array2) :
  shape0 q = 3%nat -> exists x y z, rows q = [x; y; z].
Proof.
  unfold shape0.
  destruct (rows q) as [| x [| y [| z [| w rs]]]]; cbn [length]; intros H;
    try discriminate.
  eauto.
Qed.

(** X11: a batch that does not have exactly three rows cannot be unpacked
    into x, y, z: [_energy] and [_gradient] raise ValueError, before any
    parameter is read.  With three rows and "m" or "a" missing they raise
    KeyError. *)
Theorem X11_kuzmin_errors :
  forall (self : instance) (q : array2) (t : float),
    (shape0 q <> 3%nat ->
     _energy self q t = Raise ValueError /\
     _gradient self q t = Raise ValueError) /\
    (shape0 q = 3%nat ->
     parameters self !! "m" = None \/ parameters self !! "a" = None ->
     _energy self q t = Raise KeyError /\
     _gradient self q t = Raise KeyError).
Proof.
  intros self q t. split.
  - intros H. unfold _energy, _gradient. rewrite (unpack_not_3 q H).
    split; reflexivity.
  - intros H Hp. destruct (unpack_3 q H) as (x & y & z & Hq).
    unfold _energy, _gradient, unpack, getitem. rewrite Hq.
    cbn [mbind result_bind].
    destruct (parameters self !! "m") as [m |]; [| split; reflexivity].
    destruct Hp as [Hp | Hp]; [discriminate Hp |]. rewrite Hp.
    split; reflexivity.
Qed.

Lemma X11_witness :
  (_energy (kuzmin 1 1 1) (batch 2 [[0; 0]; [1; 1]]) NaN = Raise ValueError /\
   _gradient (kuzmin 1 1 1) (batch 2 [[0; 0]; [1; 1]]) NaN = Raise ValueError)
  /\
  (_energy (Instance (Finite 1) {["m" := Finite 1]}) (batch3 [0] [0] [0]) NaN
   = Raise KeyError /\
   _gradient (Instance (Finite 1) {["m" := Finite 1]}) (batch3 [0] [0] [0]) NaN
   = Raise KeyError).
Proof.
  split.
  - apply (proj1 (X11_kuzmin_errors (kuzmin 1 1 1)
                    (batch 2 [[0; 0]; [1; 1]]) NaN)).
    unfold shape0. cbn. lia.
  - apply (proj2 (X11_kuzmin_errors (Instance (Finite 1) {["m" := Finite 1]})
                    (batch3 [0] [0] [0]) NaN)).
    + reflexivity.
    + right. reflexivity.
Defined.

Lemma gradient_item (F r : array1) (rs : list (list float)) (i j : nat)
    (f v : float) :
  rs !! i = Some r -> F !! j = Some f -> r !! j = Some v ->
  item2 (Array2 (length F) (map (zip_with mul F) rs)) i j = Some (mul f v).
Proof.
  intros Hr Hf Hv. unfold item2. cbn [rows].
  rewrite list_lookup_fmap, Hr. cbn [fmap option_fmap option_map].
  rewrite lookup_zip_with, Hf, Hv. reflexivity.
Qed.

(** X12: for a Kuzmin instance (G, m, a) and a batch of N real samples,
    [_gradient] returns a well-formed 3 x N array; at every sample whose
    x^2 + y^2 + (a + |z|)^2 is not zero its column is fac * (x, y, z)
    with fac = G*m / (x^2 + y^2 + (a + |z|)^2)^1.5. *)
Theorem X12_kuzmin_gradient_formula :
  forall (self : instance) (G m a : R) (xs ys zs : list R) (t : float),
    has_params self G m a ->
    length ys = length xs -> length zs = length xs ->
    exists g : array2,
      _gradient self (batch3 xs ys zs) t = Ok g /\
      shape g = (3%nat, length xs) /\ wf2 g /\
      forall (j : nat) (x y z : R),
        xs !! j = Some x -> ys !! j = Some y -> zs !! j = Some z ->
        rad a x y z <> 0 ->
        item2 g 0 j = Some (Finite (G * m / Rpower (rad a x y z) (3 / 2) * x))
        /\
        item2 g 1 j = Some (Finite (G * m / Rpower (rad a x y z) (3 / 2) * y))
        /\
        item2 g 2 j = Some (Finite (G * m / Rpower (rad a x y z) (3 / 2) * z)).
Proof.
  intros self G m a xs ys zs t Hp Hy Hz. eexists.
  split; [apply (gradient_batch3 self G m a xs ys zs t Hp Hy Hz) |].
  set (F := fac self (Finite m) (Finite a) (map Finite xs) (map Finite ys)
              (map Finite zs)).
  assert (HF : length F = length xs).
  { unfold F, fac. rewrite !length_map.
    apply radicand_length; rewrite length_map; congruence. }
  split; [reflexivity |]. split.
  { unfold wf2. cbn [rows ncols map].
    repeat constructor; rewrite length_zip_with, HF, length_map; lia. }
  intros j x y z Hx Hy' Hz' Hr.
  pose proof (fac_lookup self G m a xs ys zs j x y z (proj1 Hp) Hx Hy' Hz' Hr)
    as Hf. fold F in Hf. rewrite <- HF.
  repeat split.
  - rewrite (gradient_item F (map Finite xs)
               [map Finite xs; map Finite ys; map Finite zs]
               0 j _ (Finite x) eq_refl Hf);
      [reflexivity | rewrite list_lookup_fmap, Hx; reflexivity].
  - rewrite (gradient_item F (map Finite ys)
               [map Finite xs; map Finite ys; map Finite zs]
               1 j _ (Finite y) eq_refl Hf);
      [reflexivity | rewrite list_lookup_fmap, Hy'; reflexivity].
  - rewrite (gradient_item F (map Finite zs)
               [map Finite xs; map Finite ys; map Finite zs]
               2 j _ (Finite z) eq_refl Hf);
      [reflexivity | rewrite list_lookup_fmap, Hz'; reflexivity].
Qed.

Lemma X12_witness :
  exists g : array2,
    _gradient (kuzmin 1 2 3) (batch3 [1; 0] [0; 1] [2; 0]) NaN = Ok g /\
    shape g = (3%nat, 2%nat) /\ wf2 g /\
    forall (j : nat) (x y z : R),
      [1; 0] !! j = Some x -> [0; 1] !! j = Some y -> [2; 0] !! j = Some z ->
      rad 3 x y z <> 0 ->
      item2 g 0 j = Some (Finite (1 * 2 / Rpower (rad 3 x y z) (3 / 2) * x))
      /\
      item2 g 1 j = Some (Finite (1 * 2 / Rpower (rad 3 x y z) (3 / 2) * y))
      /\
      item2 g 2 j = Some (Finite (1 * 2 / Rpower (rad 3 x y z) (3 / 2) * z)).
Proof.
  apply (X12_kuzmin_gradient_formula (kuzmin 1 2 3) 1 2 3
           [1; 0] [0; 1] [2; 0] NaN).
  - apply has_params_kuzmin.
  - reflexivity.
  - reflexivity.
Defined.

Lemma rad_a0 (x y z : R) : rad 0 x y z = x ^ 2 + y ^ 2 + z ^ 2.
Proof. unfold rad. rewrite Rplus_0_l, pow2_abs. reflexivity. Qed.

Lemma rad_dz_a0 (x y z : R) :
  derivable_pt_lim (fun z' => rad 0 x y z') z (2 * z).
Proof.
  apply (derivable_pt_lim_ext
           (fct_cte (x ^ 2 + y ^ 2) + (fun v => v ^ 2))%F).
  { intros z'. rewrite rad_a0. reflexivity. }
  replace (2 * z) with (0 + INR 2 * z ^ Nat.pred 2) by (simpl; ring).
  apply derivable_pt_lim_plus;
    [apply derivable_pt_lim_const | apply derivable_pt_lim_pow].
Qed.

Lemma Rpower_rad_pos (a x y z : R) : 0 < Rpower (rad a x y z) (3 / 2).
Proof. apply exp_pos. Qed.

(** X13: at every sample whose x^2 + y^2 + (a + |z|)^2 is not zero, the
    x and y components that [_gradient] returns are the partial
    derivatives of [_energy] in x and in y.  When the flattening a is 0
    the z component is the partial derivative in z as well, so that the
    returned vector is the full gradient of the energy. *)
Theorem X13_kuzmin_gradient_xy_derivatives :
  forall (self : instance) (G m a x y z : R),
    has_params self G m a -> rad a x y z <> 0 ->
    exists gx gy gz : R,
      gradient_at self x y z = Some (gx, gy, gz) /\
      derivable_pt_lim (fun x' => energy_at self x' y z) x gx /\
      derivable_pt_lim (fun y' => energy_at self x y' z) y gy /\
      (a = 0 -> derivable_pt_lim (fun z' => energy_at self x y z') z gz).
Proof.
  intros self G m a x y z Hp Hr. do 3 eexists.
  split; [apply (gradient_at_eq self G m a x y z Hp Hr) |].
  split; [apply (energy_dx self G m a x y z Hp Hr) |].
  split; [apply (energy_dy self G m a x y z Hp Hr) |].
  intros ->.
  apply (derivable_pt_lim_ext
           (fun z' => - G * m / R_sqrt.sqrt (rad 0 x y z')));
    [intros z'; symmetry; apply energy_at_eq, Hp |].
  pose proof (derivable_pt_lim_inv_sqrt (fun z' => rad 0 x y z') (- G * m) z _
                (rad_dz_a0 x y z) (rad_pos _ _ _ _ Hr)) as H.
  pose proof (Rpower_rad_pos 0 x y z) as Hpw.
  replace (G * m / Rpower (rad 0 x y z) (3 / 2) * z)
    with (- (- G * m) * (2 * z) / (2 * Rpower (rad 0 x y z) (3 / 2)))
    by (field; lra).
  exact H.
Qed.

Lemma X13_witness :
  exists gx gy gz : R,
    gradient_at (kuzmin 1 1 0) 0 0 1 = Some (gx, gy, gz) /\
    derivable_pt_lim (fun x' => energy_at (kuzmin 1 1 0) x' 0 1) 0 gx /\
    derivable_pt_lim (fun y' => energy_at (kuzmin 1 1 0) 0 y' 1) 0 gy /\
    (0 = 0 -> derivable_pt_lim (fun z' => energy_at (kuzmin 1 1 0) 0 0 z') 1 gz).
Proof.
  apply (X13_kuzmin_gradient_xy_derivatives (kuzmin 1 1 0) 1 1 0 0 0 1).
  - apply has_params_kuzmin.
  - rewrite rad_a0. lra.
Defined.

(** X14: at a sample with z not zero and x^2 + y^2 + (a + |z|)^2 not
    zero, the partial derivative of [_energy] in z is the z component
    that [_gradient] returns plus fac * a * z / |z|; hence, when a and
    G*m are not zero, the returned z component is not that derivative. *)
Theorem X14_kuzmin_gradient_z_offset :
  forall (self : instance) (G m a x y z : R),
    has_params self G m a -> rad a x y z <> 0 -> z <> 0 ->
    exists gx gy gz : R,
      gradient_at self x y z = Some (gx, gy, gz) /\
      derivable_pt_lim (fun z' => energy_at self x y z') z
        (gz + G * m / Rpower (rad a x y z) (3 / 2) * a * (z / Rabs z)) /\
      (a <> 0 -> G * m <> 0 ->
       ~ derivable_pt_lim (fun z' => energy_at self x y z') z gz).
Proof.
  intros self G m a x y z Hp Hr Hz. do 3 eexists.
  split; [apply (gradient_at_eq self G m a x y z Hp Hr) |].
  pose proof (energy_dz self G m a x y z Hp Hr Hz) as Hd.
  pose proof (Rpower_rad_pos a x y z) as Hpw.
  assert (Habs : Rabs z <> 0) by (apply Rabs_no_R0, Hz).
  assert (He : G * m / Rpower (rad a x y z) (3 / 2) * (z + a * (z / Rabs z))
               = G * m / Rpower (rad a x y z) (3 / 2) * z
                 + G * m / Rpower (rad a x y z) (3 / 2) * a * (z / Rabs z))
    by (field; split; [exact Habs | lra]).
  rewrite He in Hd. split; [exact Hd |].
  intros Ha HGm H. pose proof (uniqueness_limite _ _ _ _ Hd H) as Hu.
  assert (Hq : G * m / Rpower (rad a x y z) (3 / 2) * a * (z / Rabs z) = 0)
    by lra.
  assert (Hne : G * m / Rpower (rad a x y z) (3 / 2) * a * (z / Rabs z) <> 0).
  { apply Rmult_integral_contrapositive_currified;
      [apply Rmult_integral_contrapositive_currified; [| exact Ha] |];
      unfold Rdiv; apply Rmult_integral_contrapositive_currified;
      try assumption; apply Rinv_neq_0_compat; [lra | exact Habs]. }
  exact (Hne Hq).
Qed.

Lemma X14_witness :
  exists gx gy gz : R,
    gradient_at (kuzmin 1 1 1) 0 0 1 = Some (gx, gy, gz) /\
    derivable_pt_lim (fun z' => energy_at (kuzmin 1 1 1) 0 0 z') 1
      (gz + 1 * 1 / Rpower (rad 1 0 0 1) (3 / 2) * 1 * (1 / Rabs 1)) /\
    (1 <> 0 -> 1 * 1 <> 0 ->
     ~ derivable_pt_lim (fun z' => energy_at (kuzmin 1 1 1) 0 0 z') 1 gz).
Proof.
  apply (X14_kuzmin_gradient_z_offset (kuzmin 1 1 1) 1 1 1 0 0 1).
  - apply has_params_kuzmin.
  - rewrite rad_example. lra.
  - lra.
Defined.

Lemma radicand_lookup_ge (a : float) (x y z : array1) (n j : nat) :
  length x = n -> length y = n -> length z = n -> (n <= j)%nat ->
  radicand a x y z !! j = None.
Proof.
  intros Hx Hy Hz Hj. apply lookup_ge_None_2.
  rewrite (radicand_length a x y z n Hx Hy Hz). exact Hj.
Qed.

(** X15: the energy is axisymmetric.  Two batches whose samples have the
    same z and the same x^2 + y^2, sample by sample, have the same
    [_energy]. *)
Theorem X15_kuzmin_energy_axisymmetric :
  forall (self : instance) (G m a : R) (xs ys xs' ys' zs : list R) (t : float),
    has_params self G m a ->
    length ys = length xs -> length zs = length xs ->
    length xs' = length xs -> length ys' = length xs ->
    (forall (j : nat) (x y x' y' : R),
        xs !! j = Some x -> ys !! j = Some y ->
        xs' !! j = Some x' -> ys' !! j = Some y' ->
        x ^ 2 + y ^ 2 = x' ^ 2 + y' ^ 2) ->
    _energy self (batch3 xs ys zs) t = _energy self (batch3 xs' ys' zs) t.
Proof.
  intros self G m a xs ys xs' ys' zs t Hp Hy Hz Hx' Hy' Hsym.
  rewrite !(energy_batch3 self G m a) by exact Hp. do 3 f_equal.
  apply list_eq. intros j.
  destruct (Nat.lt_ge_cases j (length xs)) as [Hj | Hj].
  - destruct (lookup_lt_is_Some_2 xs j Hj) as [x Hx].
    destruct (lookup_lt_is_Some_2 ys j ltac:(lia)) as [y Hyj].
    destruct (lookup_lt_is_Some_2 zs j ltac:(lia)) as [z Hzj].
    destruct (lookup_lt_is_Some_2 xs' j ltac:(lia)) as [x' Hxj'].
    destruct (lookup_lt_is_Some_2 ys' j ltac:(lia)) as [y' Hyj'].
    rewrite (radicand_lookup a xs ys zs j x y z Hx Hyj Hzj).
    rewrite (radicand_lookup a xs' ys' zs j x' y' z Hxj' Hyj' Hzj).
    unfold rad. rewrite (Hsym j x y x' y' Hx Hyj Hxj' Hyj'). reflexivity.
  - rewrite !(radicand_lookup_ge _ _ _ _ (length xs) j);
      try reflexivity; try (rewrite length_map; congruence); exact Hj.
Qed.

Lemma X15_witness :
  _energy (kuzmin 1 2 3) (batch3 [1] [0] [5]) NaN
  = _energy (kuzmin 1 2 3) (batch3 [0] [-1] [5]) NaN.
Proof.
  apply (X15_kuzmin_energy_axisymmetric (kuzmin 1 2 3) 1 2 3
           [1] [0] [0] [-1] [5] NaN);
    try reflexivity; [apply has_params_kuzmin |].
  intros [| j] x y x' y' Hx Hy Hx' Hy'; [| discriminate Hx].
  injection Hx as <-. injection Hy as <-.
  injection Hx' as <-. injection Hy' as <-. lra.
Defined.

Lemma Rltb_opp_0 (r : R) : Rltb (- r) 0 = Rltb 0 r.
Proof.
  destruct (Rlt_dec 0 r) as [H | H].
  - rewrite !Rltb_true by lra. reflexivity.
  - rewrite !Rltb_false by lra. reflexivity.
Qed.

Lemma rad_0_xy (a x y z : R) : rad a x y z = 0 -> x = 0 /\ y = 0.
Proof.
  unfold rad. intros H.
  pose proof (pow2_ge_0 x). pose proof (pow2_ge_0 y).
  pose proof (pow2_ge_0 (a + Rabs z)).
  split.
  - destruct (Req_dec_T x 0) as [Hx | Hx]; [exact Hx |].
    pose proof (pow_nonzero x 2 Hx). lra.
  - destruct (Req_dec_T y 0) as [Hy | Hy]; [exact Hy |].
    pose proof (pow_nonzero y 2 Hy). lra.
Qed.

Lemma fac_lookup_singular (self : instance) (G m a : R) (xs ys zs : list R)
    (j : nat) (x y z : R) :
  KuzminPotential.G self = Finite G ->
  xs !! j = Some x -> ys !! j = Some y -> zs !! j = Some z ->
  rad a x y z = 0 -> G * m <> 0 ->
  fac self (Finite m) (Finite a) (map Finite xs) (map Finite ys)
    (map Finite zs) !! j
  = Some (Inf (Rltb (G * m) 0)).
Proof.
  intros HG Hx Hy Hz Hr HGm. unfold fac.
  rewrite !list_lookup_fmap, (radicand_lookup a xs ys zs j x y z Hx Hy Hz).
  cbn [fmap option_fmap option_map]. rewrite Hr, HG. cbn [pow_1_5 mul].
  rewrite Rltb_false by lra. rewrite Reqb_true by reflexivity.
  cbn [div]. rewrite Reqb_true by reflexivity.
  rewrite Reqb_false by exact HGm. reflexivity.
Qed.

(** X16: at a singular sample, one whose x^2 + y^2 + (a + |z|)^2 is zero,
    with G*m not zero, nothing is raised: [_energy] gives minus infinity
    when G*m > 0 and plus infinity when G*m < 0, and the x and y
    components of [_gradient] are NaN (an infinite factor times 0). *)
Theorem X16_kuzmin_singular_sample :
  forall (self : instance) (G m a : R) (xs ys zs : list R) (t : float),
    has_params self G m a ->
    length ys = length xs -> length zs = length xs ->
    G * m <> 0 ->
    exists (es : array1) (g : array2),
      _energy self (batch3 xs ys zs) t = Ok es /\
      _gradient self (batch3 xs ys zs) t = Ok g /\
      forall (j : nat) (x y z : R),
        xs !! j = Some x -> ys !! j = Some y -> zs !! j = Some z ->
        rad a x y z = 0 ->
        es !! j = Some (Inf (Rltb 0 (G * m))) /\
        item2 g 0 j = Some NaN /\ item2 g 1 j = Some NaN.
Proof.
  intros self G m a xs ys zs t Hp Hy Hz HGm. do 2 eexists.
  split; [apply (energy_batch3 self G m a), Hp |].
  split; [apply (gradient_batch3 self G m a xs ys zs t Hp Hy Hz) |].
  intros j x y z Hx Hy' Hz' Hr.
  destruct (rad_0_xy a x y z Hr) as [-> ->].
  split.
  { rewrite (energy_lookup G m a xs ys zs j 0 0 z Hx Hy' Hz').
    rewrite Hr, sqrt_0. cbn [div]. rewrite Reqb_true by reflexivity.
    rewrite Reqb_false by lra.
    replace (- G * m) with (- (G * m)) by ring. rewrite Rltb_opp_0.
    reflexivity. }
  set (F := fac self (Finite m) (Finite a) (map Finite xs) (map Finite ys)
              (map Finite zs)).
  assert (HF : length F = length xs).
  { unfold F, fac. rewrite !length_map.
    apply radicand_length; rewrite length_map; congruence. }
  pose proof (fac_lookup_singular self G m a xs ys zs j 0 0 z (proj1 Hp)
                Hx Hy' Hz' Hr HGm) as Hf. fold F in Hf. rewrite <- HF.
  split.
  - rewrite (gradient_item F (map Finite xs)
               [map Finite xs; map Finite ys; map Finite zs]
               0 j _ (Finite 0) eq_refl Hf);
      [| rewrite list_lookup_fmap, Hx; reflexivity].
    cbn [mul]. rewrite Reqb_true by reflexivity. reflexivity.
  - rewrite (gradient_item F (map Finite ys)
               [map Finite xs; map Finite ys; map Finite zs]
               1 j _ (Finite 0) eq_refl Hf);
      [| rewrite list_lookup_fmap, Hy'; reflexivity].
    cbn [mul]. rewrite Reqb_true by reflexivity. reflexivity.
Qed.

Lemma X16_witness :
  exists (es : array1) (g : array2),
    _energy (kuzmin 1 1 0) (batch3 [0] [0] [0]) NaN = Ok es /\
    _gradient (kuzmin 1 1 0) (batch3 [0] [0] [0]) NaN = Ok g /\
    forall (j : nat) (x y z : R),
      [0] !! j = Some x -> [0] !! j = Some y -> [0] !! j = Some z ->
      rad 0 x y z = 0 ->
      es !! j = Some (Inf (Rltb 0 (1 * 1))) /\
      item2 g 0 j = Some NaN /\ item2 g 1 j = Some NaN.
Proof.
  apply (X16_kuzmin_singular_sample (kuzmin 1 1 0) 1 1 0 [0] [0] [0] NaN);
    [apply has_params_kuzmin | reflexivity | reflexivity | lra].
Defined.



Lemma radicand_reflect (a : float) (x y z : array1) :
  radicand a (map neg x) (map neg y) (map neg z) = radicand a x y z.
Proof.
  unfold radicand.
  rewrite (map_map neg square x), (map_map neg square y), (map_map neg abs z).
  rewrite (map_ext (fun v => square (neg v)) square square_neg x).
  rewrite (map_ext (fun v => square (neg v)) square square_neg y).
  rewrite (map_ext (fun v => abs (neg v)) abs abs_neg z).
  reflexivity.
Qed.

(** X20: under the point reflection q -> -q of a whole batch, [_energy]
    is unchanged and [_gradient] returns the negated array; both raise in
    the same cases.  This holds for every instance and every array. *)
Theorem X20_kuzmin_point_reflection :
  forall (self : instance) (q : array2) (t : float),
    _energy self (map2d neg q) t = _energy self q t /\
    _gradient self (map2d neg q) t = map2d neg <$> _gradient self q t.
Proof.
  intros self [n rs] t. unfold _energy, _gradient, unpack, fac, map2d.
  cbn [rows ncols].
  destruct rs as [| x [| y [| z [| w rs]]]]; try (split; reflexivity).
  cbn [map mbind result_bind].
  destruct (getitem (parameters self) "m") as [m | e];
    [| split; reflexivity].
  destruct (getitem (parameters self) "a") as [a | e];
    [| split; reflexivity].
  cbn [mbind result_bind]. rewrite radicand_reflect.
  split; [reflexivity |].
  unfold newaxis. rewrite !broadcast2_single_row. cbn [ncols rows].
  destruct (broadcast_dim _ n) as [c |]; [| reflexivity].
  cbn [map fmap result_fmap rows ncols].
  rewrite !(stretch_map neg), !zip_with_mul_neg. reflexivity.
Qed.

End KuzminMore.
